(** * The level-aware logging core of kit: levels, tagger, filter and the
      serializing logger.

    The serializing logger is embedded from the [main] package of the
    shipping example ([serializedLogger], its method [Log] and its
    construction in [main]).  The package [log/level] ships only its package
    documentation; its operations are modelled from the specification and
    marked as such. *)

From Stdlib Require Import String ZArith List Lia Bool Arith Permutation.
From stdpp Require Import base list strings gmap.
Import ListNotations.

Local Open Scope string_scope.
Local Open Scope list_scope.

(* ===================================================================== *)
(** * Levels *)
(* ===================================================================== *)

(** Modelled from the spec: the package [log/level] has no code in the
    sources (only [doc.go]); the closed set of severities, their rank and
    their comparison follow sections 3 and 4.1 of the specification. *)
Inductive Level : Type := debug | info | warn | error.

(** Modelled from the spec: [Rank] of section 4.1, "debug=0, info=1, warn=2,
    error=3". *)
Definition Rank (l : Level) : Z :=
  match l with
  | debug => 0
  | info => 1
  | warn => 2
  | error => 3
  end%Z.

(** Modelled from the spec: [Compare(a, b) -> {less, equal, greater}] of
    section 4.1, written as the table of the order
    [debug < info < warn < error] (it does not go through [Rank]). *)
Definition Compare (a b : Level) : comparison :=
  match a, b with
  | debug, debug => Eq
  | debug, _ => Lt
  | info, debug => Gt
  | info, info => Eq
  | info, _ => Lt
  | warn, debug => Gt
  | warn, info => Gt
  | warn, warn => Eq
  | warn, error => Lt
  | error, error => Eq
  | error, _ => Gt
  end.

(** The strict order the specification writes [debug < info < warn < error],
    as the transitive closure of its three steps. *)
Inductive Below : Level -> Level -> Prop :=
| Below_debug_info : Below debug info
| Below_info_warn : Below info warn
| Below_warn_error : Below warn error
| Below_trans a b c : Below a b -> Below b c -> Below a c.

(* ===================================================================== *)
(** * Go values, errors and the Logger capability *)
(* ===================================================================== *)

(** The dynamic values ([interface{}]) that call sites put in a log event. *)
Inductive value : Type :=
| VNil
| VStr (s : string)
| VInt (z : Z)
| VBool (b : bool)
| VLevel (l : Level).

(** Go's [error] values.  [SinkError] stands for whatever a sink reports;
    [ErrNoLevel] is the filter's own policy violation (a named kind). *)
Inductive error_value : Type :=
| SinkError (msg : string)
| ErrNoLevel.

(** How a call of [Log] ends: it returns an [error] ([None] is [nil]), or it
    panics. *)
Inductive outcome : Type :=
| Returned (err : option error_value)
| Panicked (v : value).

(** [log.Logger]: the interface with the single method
    [Log(keyvals ...interface{}) error].  [E] is the type of an event as the
    implementation receives it, [W] the state the implementation works on. *)
Record log_Logger (E W : Type) : Type := mkLogger {
  Log : E -> W -> W * outcome
}.
Arguments mkLogger {E W} _.
Arguments Log {E W} _ _ _.

(** The variadic argument list [keyvals ...interface{}]. *)
Definition keyvals : Type := list value.

(* ===================================================================== *)
(** * The serializing logger, one caller at a time *)
(* ===================================================================== *)

Module Serialized.

(** [sync.Mutex]; its zero value is an unlocked mutex. *)
Inductive Mutex : Type := Unlocked | Locked.

Section SerializedLogger.
Context {E W : Type}.

(** [type serializedLogger struct { mtx sync.Mutex; log.Logger }] *)
Record serializedLogger : Type := mkSerialized {
  mtx : Mutex;
  Logger : log_Logger E W
}.

(** [&serializedLogger{Logger: logger}], as [main] builds it: the field
    [mtx] is left at its zero value. *)
Definition newSerializedLogger (logger : log_Logger E W) : serializedLogger :=
  {| mtx := Unlocked; Logger := logger |}.

(** What a call of [Log] on the wrapper does that can be observed. *)
Inductive effect : Type :=
| Acquire
| CallLogger (kvs : E)
| Release.

(** The receiver [l] (a pointer: the struct is updated in place), the state
    of the wrapped logger, and the effects so far. *)
Record world : Type := mkWorld {
  self : serializedLogger;
  sink : W;
  trace : list effect
}.

(** How a piece of a Go function body ends. *)
Inductive exit (A : Type) : Type :=
| Normal (a : A)
| Panic (v : value)
| Block                 (* waits forever: [Lock] on a mutex nobody releases *)
| Fatal (msg : string). (* the runtime aborts the process *)
Arguments Normal {A} _.
Arguments Panic {A} _.
Arguments Block {A}.
Arguments Fatal {A} _.

Definition M (A : Type) : Type := world -> world * exit A.

Definition ret {A} (a : A) : M A := fun w => (w, Normal a).

Definition bind {A B} (m : M A) (k : A -> M B) : M B :=
  fun w =>
    match m w with
    | (w1, Normal a) => k a w1
    | (w1, Panic v) => (w1, Panic v)
    | (w1, Block) => (w1, Block)
    | (w1, Fatal msg) => (w1, Fatal msg)
    end.

(** [defer d; body]: [d] runs when [body] returns and when it panics, and
    the function then ends the way [body] did, unless [d] itself does not
    return normally. *)
Definition defer {A} (d : M unit) (body : M A) : M A :=
  fun w =>
    match body w with
    | (w1, Block) => (w1, Block)
    | (w1, Fatal msg) => (w1, Fatal msg)
    | (w1, ending) =>
        match d w1 with
        | (w2, Normal _) => (w2, ending)
        | (w2, Panic v) => (w2, Panic v)
        | (w2, Block) => (w2, Block)
        | (w2, Fatal msg) => (w2, Fatal msg)
        end
    end.

Definition set_mtx (m : Mutex) (l : serializedLogger) : serializedLogger :=
  {| mtx := m; Logger := Logger l |}.

(** [l.mtx.Lock()] *)
Definition mtx_Lock : M unit :=
  fun w =>
    match mtx (self w) with
    | Unlocked =>
        ({| self := set_mtx Locked (self w); sink := sink w;
            trace := trace w ++ [Acquire] |}, Normal tt)
    | Locked => (w, Block)
    end.

(** [l.mtx.Unlock()] *)
Definition mtx_Unlock : M unit :=
  fun w =>
    match mtx (self w) with
    | Locked =>
        ({| self := set_mtx Unlocked (self w); sink := sink w;
            trace := trace w ++ [Release] |}, Normal tt)
    | Unlocked => (w, Fatal "sync: unlock of unlocked mutex")
    end.

(** [l.Logger.Log(keyvals...)] *)
Definition Logger_Log (kvs : E) : M (option error_value) :=
  fun w =>
    let (s, o) := Log (Logger (self w)) kvs (sink w) in
    ({| self := self w; sink := s; trace := trace w ++ [CallLogger kvs] |},
     match o with
     | Returned err => Normal err
     | Panicked v => Panic v
     end).

(** [func (l *serializedLogger) Log(keyvals ...interface{}) error] *)
Definition serializedLogger_Log (kvs : E) : M (option error_value) :=
  bind mtx_Lock (fun _ =>
  defer mtx_Unlock
    (Logger_Log kvs)).

(** The ending of the wrapper's [Log] that corresponds to an ending of the
    wrapped one. *)
Definition exit_of (o : outcome) : exit (option error_value) :=
  match o with
  | Returned err => Normal err
  | Panicked v => Panic v
  end.

(** A caller that issues the events of [evs] one after the other, going on
    after a return and after a (recovered) panic alike; it stops at a call
    that blocks or aborts. *)
Fixpoint log_all (evs : list E) (w : world)
  : world * list (exit (option error_value)) :=
  match evs with
  | [] => (w, [])
  | kvs :: rest =>
      match serializedLogger_Log kvs w with
      | (w1, Block) => (w1, [Block])
      | (w1, Fatal msg) => (w1, [Fatal msg])
      | (w1, x) => let (w2, xs) := log_all rest w1 in (w2, x :: xs)
      end
  end.

(** The wrapped logger's own run over the same events, with no wrapper. *)
Fixpoint sink_all (next : log_Logger E W) (evs : list E) (s : W)
  : W * list outcome :=
  match evs with
  | [] => (s, [])
  | kvs :: rest =>
      let (s1, o) := Log next kvs s in
      let (s2, os) := sink_all next rest s1 in
      (s2, o :: os)
  end.

End SerializedLogger.

Arguments serializedLogger : clear implicits.
Arguments world : clear implicits.
Arguments effect : clear implicits.
Arguments Normal {A} _.
Arguments Panic {A} _.
Arguments Block {A}.
Arguments Fatal {A} _.

End Serialized.


(* ===================================================================== *)
(** * The serializing logger under concurrent callers *)
(* ===================================================================== *)

(** Goroutines that each call [Log] once on one shared [*serializedLogger]
    are interleaved statement by statement.  [sync.Mutex] is taken as the
    Go memory model specifies it: [Lock] returns only when the mutex is
    unlocked, and locks it.  The call of the wrapped logger is a stretch of
    time between an [Enter] and a [Leave]; its result and its effect on the
    sink are those of the wrapped logger run on the state it finds. *)
Module Concurrent.

Import Serialized.

Section Machine.
Context {E W : Type}.
Variable next : log_Logger E W.

(** Where a goroutine stands in the body of [Log]. *)
Inductive pc : Type :=
| AtLock                   (* before [l.mtx.Lock()] has returned *)
| AtCall                   (* lock held, [Unlock] deferred, before the call *)
| InLogger                 (* inside [l.Logger.Log(keyvals...)] *)
| AtUnlock (o : outcome)   (* the call ended with [o]; the deferred [Unlock] is next *)
| Finished (o : outcome).  (* [Log] has ended with [o] *)

Record goroutine : Type := mkGoroutine {
  args : E;
  at_pc : pc
}.

(** What the goroutines do to the mutex and to the wrapped logger, in the
    order it happens. *)
Inductive observation : Type :=
| Acq (g : nat)
| Enter (g : nat) (kvs : E)
| Leave (g : nat) (kvs : E) (o : outcome)
| Rel (g : nat).

Record state : Type := mkState {
  mutex : Mutex;
  sink_state : W;
  seen : list observation;
  pool : list goroutine
}.

Definition move (p : pc) (g : goroutine) : goroutine :=
  {| args := args g; at_pc := p |}.

(** One statement of goroutine [i]; [None] when it cannot move: it waits in
    [Lock], it has finished, there is no such goroutine, or the runtime
    aborts on unlocking an unlocked mutex. *)
Definition step (i : nat) (st : state) : option state :=
  match pool st !! i with
  | None => None
  | Some g =>
      match at_pc g with
      | AtLock =>
          match mutex st with
          | Unlocked =>
              Some {| mutex := Locked; sink_state := sink_state st;
                      seen := seen st ++ [Acq i];
                      pool := <[i := move AtCall g]> (pool st) |}
          | Locked => None
          end
      | AtCall =>
          Some {| mutex := mutex st; sink_state := sink_state st;
                  seen := seen st ++ [Enter i (args g)];
                  pool := <[i := move InLogger g]> (pool st) |}
      | InLogger =>
          let (s, o) := Log next (args g) (sink_state st) in
          Some {| mutex := mutex st; sink_state := s;
                  seen := seen st ++ [Leave i (args g) o];
                  pool := <[i := move (AtUnlock o) g]> (pool st) |}
      | AtUnlock o =>
          match mutex st with
          | Locked =>
              Some {| mutex := Unlocked; sink_state := sink_state st;
                      seen := seen st ++ [Rel i];
                      pool := <[i := move (Finished o) g]> (pool st) |}
          | Unlocked => None
          end
      | Finished _ => None
      end
  end.

(** A schedule names the goroutine that moves at each step. *)
Fixpoint run (sched : list nat) (st : state) : option state :=
  match sched with
  | [] => Some st
  | i :: rest =>
      match step i st with
      | Some st1 => run rest st1
      | None => None
      end
  end.

(** One goroutine per event, none started, the mutex at its zero value. *)
Definition start (evs : list E) (s : W) : state :=
  {| mutex := Unlocked; sink_state := s; seen := [];
     pool := map (fun kvs => {| args := kvs; at_pc := AtLock |}) evs |}.

(** The statements of [Log] a goroutine has behind it. *)
Definition progress (g : goroutine) : nat :=
  match at_pc g with
  | AtLock => 0
  | AtCall => 1
  | InLogger => 2
  | AtUnlock _ => 3
  | Finished _ => 4
  end.

Definition has_entered (g : goroutine) : nat :=
  match at_pc g with
  | InLogger | AtUnlock _ | Finished _ => 1
  | _ => 0
  end.

Definition has_left (g : goroutine) : nat :=
  match at_pc g with
  | AtUnlock _ | Finished _ => 1
  | _ => 0
  end.

Definition is_finished (g : goroutine) : bool :=
  match at_pc g with
  | Finished _ => true
  | _ => false
  end.

Definition total (f : goroutine -> nat) (l : list goroutine) : nat :=
  list_sum (map f l).

(** The calls the wrapped logger has been entered with, in order. *)
Fixpoint entered_calls (obs : list observation) : list E :=
  match obs with
  | [] => []
  | Enter _ kvs :: rest => kvs :: entered_calls rest
  | _ :: rest => entered_calls rest
  end.

(** The calls the wrapped logger has completed, in order. *)
Fixpoint completed_calls (obs : list observation) : list E :=
  match obs with
  | [] => []
  | Leave _ kvs _ :: rest => kvs :: completed_calls rest
  | _ :: rest => completed_calls rest
  end.

(** The entries of goroutine [i] into the wrapped logger. *)
Fixpoint entries_of (i : nat) (obs : list observation) : list E :=
  match obs with
  | [] => []
  | Enter j kvs :: rest =>
      if Nat.eqb i j then kvs :: entries_of i rest else entries_of i rest
  | _ :: rest => entries_of i rest
  end.

(** Where a serial history stands: nobody holds the lock, or goroutine [g]
    holds it and is before, inside or after its call of the wrapped logger. *)
Inductive phase : Type :=
| Idle
| Held (g : nat)
| Inside (g : nat) (kvs : E)
| After (g : nat).

(** A serial history: the four observations of one call of [Log] follow one
    another with nothing of another call in between.  In particular an
    [Enter] comes only when no call of the wrapped logger is open, and the
    next observation of the wrapped logger is the [Leave] of that call. *)
Inductive Serial : phase -> list observation -> Prop :=
| Serial_nil : Serial Idle []
| Serial_acq obs g :
    Serial Idle obs -> Serial (Held g) (obs ++ [Acq g])
| Serial_enter obs g kvs :
    Serial (Held g) obs -> Serial (Inside g kvs) (obs ++ [Enter g kvs])
| Serial_leave obs g kvs o :
    Serial (Inside g kvs) obs -> Serial (After g) (obs ++ [Leave g kvs o])
| Serial_rel obs g :
    Serial (After g) obs -> Serial Idle (obs ++ [Rel g]).

(** The same, as a check that runs over a history from its start. *)
Fixpoint scan (ph : phase) (obs : list observation) : option phase :=
  match obs with
  | [] => Some ph
  | Acq g :: rest =>
      match ph with
      | Idle => scan (Held g) rest
      | _ => None
      end
  | Enter g kvs :: rest =>
      match ph with
      | Held h => if Nat.eqb g h then scan (Inside g kvs) rest else None
      | _ => None
      end
  | Leave g _ _ :: rest =>
      match ph with
      | Inside h kvs => if Nat.eqb g h then scan (After g) rest else None
      | _ => None
      end
  | Rel g :: rest =>
      match ph with
      | After h => if Nat.eqb g h then scan Idle rest else None
      | _ => None
      end
  end.

Definition lock_of (ph : phase) : Mutex :=
  match ph with
  | Idle => Unlocked
  | _ => Locked
  end.

Definition holder (ph : phase) : option nat :=
  match ph with
  | Idle => None
  | Held g | Inside g _ | After g => Some g
  end.

(** What the phase of the history says about goroutine [i]. *)
Definition agrees (ph : phase) (i : nat) (g : goroutine) : Prop :=
  match at_pc g with
  | AtLock | Finished _ => holder ph <> Some i
  | AtCall => ph = Held i
  | InLogger => ph = Inside i (args g)
  | AtUnlock _ => ph = After i
  end.

(** Whether a goroutine stands between its [Lock] and its [Unlock]. *)
Definition holding (g : goroutine) : bool :=
  match at_pc g with
  | AtCall | InLogger | AtUnlock _ => true
  | _ => false
  end.

(** The invariant of the machine, for a run that started with the wrapped
    logger in state [s0]. *)
Record Inv (s0 : W) (st : state) : Prop := mkInv {
  inv_phase : exists ph,
      Serial ph (seen st) /\
      mutex st = lock_of ph /\
      (forall i g, pool st !! i = Some g -> agrees ph i g) /\
      (forall h, holder ph = Some h ->
                 exists g, pool st !! h = Some g /\ holding g = true);
  inv_entered :
      length (entered_calls (seen st)) = total has_entered (pool st);
  inv_left :
      length (completed_calls (seen st)) = total has_left (pool st);
  inv_own : forall i g, pool st !! i = Some g ->
      entries_of i (seen st) = if Nat.ltb 1 (progress g) then [args g] else [];
  inv_sink :
      sink_state st = fst (sink_all next (completed_calls (seen st)) s0)
}.

End Machine.

Arguments goroutine : clear implicits.
Arguments observation : clear implicits.
Arguments state : clear implicits.
Arguments phase : clear implicits.

End Concurrent.

(* ===================================================================== *)
(** * Loggers used to observe the wrappers *)
(* ===================================================================== *)

(** A logger that notes every event it is called with, in order, and hands
    it to [next]. *)
Definition recording {E W : Type} (next : log_Logger E W)
  : log_Logger E (list E * W) :=
  mkLogger (fun event st =>
    let (w1, o) := Log next event (snd st) in
    ((fst st ++ [event], w1), o)).

(** What one call of [next] on [event], and nothing else, leaves behind a
    recording logger that had noted [tr] and whose [next] was in state [w]. *)
Definition forwarded {E W : Type} (next : log_Logger E W) (event : E)
    (tr : list E) (w : W) : (list E * W) * outcome :=
  ((tr ++ [event], fst (Log next event w)), snd (Log next event w)).

(** A sink that appends the event to a plain buffer and succeeds. *)
Definition bufferSink {E : Type} : log_Logger E (list E) :=
  mkLogger (fun event buf => (buf ++ [event], Returned None)).

(** A sink that writes nothing and fails with [SinkError msg]. *)
Definition failingSink {E : Type} (msg : string) : log_Logger E (list E) :=
  mkLogger (fun _ buf => (buf, Returned (Some (SinkError msg)))).

(** A sink that panics once the event is in its buffer. *)
Definition panickingSink {E : Type} (v : value) : log_Logger E (list E) :=
  mkLogger (fun event buf => (buf ++ [event], Panicked v)).

(* ===================================================================== *)
(** * The level package: tagger and filter *)
(* ===================================================================== *)

Module level.

(** Modelled from the spec: the reserved key that carries the severity, a
    package-wide constant ([levelKey] in section 4.2); the scenarios of
    section 8 write it [level].  The package has no code in the sources. *)
Definition levelKey : string := "level".

(** Modelled from the spec: a [LogEvent] of section 3, "an ordered sequence
    of key/value pairs; keys are not required to be unique". *)
Definition LogEvent : Type := list (string * value).

(** Modelled from the spec: the missing-annotation policy of section 3. *)
Inductive MissingPolicy : Type :=
| SquelchSilently
| PassThrough
| TreatAsError.

(** Whether a pair carries the reserved key. *)
Definition isLevelPair (kv : string * value) : bool :=
  String.eqb (fst kv) levelKey.

(** The number of pairs of an event that carry the reserved key. *)
Definition reservedPairs (event : LogEvent) : nat :=
  length (List.filter isLevelPair event).

(** Modelled from the spec: step 1 of the filter's algorithm (section 4.3),
    "scan [event] for the last occurrence of the reserved severity key". *)
Fixpoint lastSeverity (event : LogEvent) : option value :=
  match event with
  | [] => None
  | kv :: rest =>
      match lastSeverity rest with
      | Some v => Some v
      | None => if isLevelPair kv then Some (snd kv) else None
      end
  end.

(** Modelled from the spec: [Tag(level, logger)] of section 4.2, "appends the
    pair [(levelKey, level)] to the end of [event] and forwards the extended
    event to the wrapped Logger, returning whatever error (if any) the
    wrapped Logger returns". *)
Definition Tag {W : Type} (lvl : Level) (logger : log_Logger LogEvent W)
  : log_Logger LogEvent W :=
  mkLogger (fun event w => Log logger (event ++ [(levelKey, VLevel lvl)]) w).

(** Modelled from the spec: the four named constructors of section 4.2, one
    per level. *)
Definition Debug {W : Type} (logger : log_Logger LogEvent W) :=
  mkLogger (fun event w => Log logger (event ++ [(levelKey, VLevel debug)]) w).

Definition Info {W : Type} (logger : log_Logger LogEvent W) :=
  mkLogger (fun event w => Log logger (event ++ [(levelKey, VLevel info)]) w).

Definition Warn {W : Type} (logger : log_Logger LogEvent W) :=
  mkLogger (fun event w => Log logger (event ++ [(levelKey, VLevel warn)]) w).

Definition Error {W : Type} (logger : log_Logger LogEvent W) :=
  mkLogger (fun event w => Log logger (event ++ [(levelKey, VLevel error)]) w).

(** Modelled from the spec: the level filter of section 4.3, built from the
    logger to wrap, the least level allowed and the missing-annotation
    policy.  A reserved key whose last occurrence carries a value that is no
    level is taken as a missing annotation (section 9, open question). *)
Definition NewFilter {W : Type} (next : log_Logger LogEvent W)
    (threshold : Level) (policy : MissingPolicy) : log_Logger LogEvent W :=
  mkLogger (fun event w =>
    match lastSeverity event with
    | Some (VLevel L) =>
        if (Rank threshold <=? Rank L)%Z
        then Log next event w
        else (w, Returned None)
    | _ =>
        match policy with
        | SquelchSilently => (w, Returned None)
        | PassThrough => Log next event w
        | TreatAsError => (w, Returned (Some ErrNoLevel))
        end
    end).

(** Whether an outcome is a returned error. *)
Definition isError (o : outcome) : bool :=
  match o with
  | Returned (Some _) => true
  | _ => false
  end.

End level.

(** Modelled from the spec: the filter's decision of section 4.3, as a test
    on the event: the last severity reaches the threshold, or there is none
    and the policy lets the event through. *)
Definition accepts (threshold : Level) (policy : level.MissingPolicy)
    (event : level.LogEvent) : bool :=
  match level.lastSeverity event with
  | Some (VLevel L) => (Rank threshold <=? Rank L)%Z
  | _ =>
      match policy with
      | level.PassThrough => true
      | _ => false
      end
  end.

(* ===================================================================== *)
(** * Readings of a history of the serializing logger *)
(* ===================================================================== *)

Module Delivery.

Import Concurrent.

Section Readings.
Context {E : Type}.

(** The goroutines in the order in which [Lock] returned to them. *)
Fixpoint acq_ids (obs : list (observation E)) : list nat :=
  match obs with
  | [] => []
  | Acq g :: rest => g :: acq_ids rest
  | _ :: rest => acq_ids rest
  end.

(** The goroutines in the order in which they entered the wrapped logger. *)
Fixpoint enter_ids (obs : list (observation E)) : list nat :=
  match obs with
  | [] => []
  | Enter g _ :: rest => g :: enter_ids rest
  | _ :: rest => enter_ids rest
  end.

(** The goroutines in the order in which the wrapped logger answered them. *)
Fixpoint leave_ids (obs : list (observation E)) : list nat :=
  match obs with
  | [] => []
  | Leave g _ _ :: rest => g :: leave_ids rest
  | _ :: rest => leave_ids rest
  end.

(** The goroutines in the order in which they unlocked. *)
Fixpoint rel_ids (obs : list (observation E)) : list nat :=
  match obs with
  | [] => []
  | Rel g :: rest => g :: rel_ids rest
  | _ :: rest => rel_ids rest
  end.


(** The arguments of the goroutines that have entered the wrapped logger,
    in the order of the pool. *)
Fixpoint entered_args (l : list (goroutine E)) : list E :=
  match l with
  | [] => []
  | g :: rest =>
      match has_entered g with
      | 0 => entered_args rest
      | _ => args g :: entered_args rest
      end
  end.

(** The goroutine a phase is about, when the phase is the given one. *)
Definition waiting_to_enter (ph : phase E) : list nat :=
  match ph with
  | Held g => [g]
  | _ => []
  end.

Definition inside (ph : phase E) : list nat :=
  match ph with
  | Inside g _ => [g]
  | _ => []
  end.

Definition waiting_to_unlock (ph : phase E) : list nat :=
  match ph with
  | After g => [g]
  | _ => []
  end.


End Readings.

End Delivery.

(* ===================================================================== *)
(** * The rest of the shipping example's [main] package *)
(* ===================================================================== *)

Module shipping.

(** The process environment: the variables that are set, with their values. *)
Abbreviation Environ := (gmap string string).

(** [os.Getenv(key)]: the value of the variable, "which will be empty if the
    variable is not present". *)
Definition os_Getenv (env : Environ) (key : string) : string :=
  match env !! key with
  | Some v => v
  | None => ""
  end.

(** [func envString(env, fallback string) string] *)
Definition envString (environ : Environ) (env fallback : string) : string :=
  let e := os_Getenv environ env in
  if String.eqb e "" then fallback else e.

Definition defaultPort : string := "8080".
Definition defaultRoutingServiceURL : string := "http://localhost:7878".

(** The default of the flag [http.addr] in [main]: [":"+addr] with
    [addr = envString("PORT", defaultPort)]. *)
Definition default_httpAddr (environ : Environ) : string :=
  String.append ":" (envString environ "PORT" defaultPort).

(** The default of the flag [service.routing] in [main]. *)
Definition default_routingServiceURL (environ : Environ) : string :=
  envString environ "ROUTINGSERVICE_URL" defaultRoutingServiceURL.

(** [http.Header], a [map[string][]string]. *)
Abbreviation Header := (gmap string (list string)).

(** [Header.Set(key, value)]: the entry of [key] becomes the single value
    [value].  (The library first brings [key] to its canonical form; the
    three keys that [accessControl] sets are in that form already.) *)
Definition Header_Set (key value : string) (h : Header) : Header :=
  <[key := [value]]> h.

(** What a handler sees of an [*http.Request]. *)
Record Request : Type := mkRequest {
  Method : string;
  URL : string;
  RequestHeader : Header;
  Body : string
}.

(** The state behind an [http.ResponseWriter]: the header map that
    [w.Header()] returns, the status once it is written, and the chunks
    written to the body. *)
Record ResponseWriter : Type := mkResponseWriter {
  header : Header;
  status : option Z;
  written : list string
}.

(** How [ServeHTTP] ends: it has no result, so it returns or it panics. *)
Inductive completion : Type :=
| Returns
| Panics (v : value).

(** [http.Handler]: [ServeHTTP(w, r)], working on the response writer and on
    a state [St] of its own. *)
Definition Handler (St : Type) : Type :=
  Request -> ResponseWriter -> St -> (ResponseWriter * St) * completion.

Definition set_header (h : Header) (w : ResponseWriter) : ResponseWriter :=
  {| header := h; status := status w; written := written w |}.

(** The three statements [w.Header().Set(...)] of [accessControl]. *)
Definition allowHeaders (w : ResponseWriter) : ResponseWriter :=
  let w1 := set_header (Header_Set "Access-Control-Allow-Origin" "*"
                          (header w)) w in
  let w2 := set_header (Header_Set "Access-Control-Allow-Methods"
                          "GET, POST, OPTIONS" (header w1)) w1 in
  set_header (Header_Set "Access-Control-Allow-Headers"
                "Origin, Content-Type" (header w2)) w2.

(** [func accessControl(h http.Handler) http.Handler] *)
Definition accessControl {St : Type} (h : Handler St) : Handler St :=
  fun r w st =>
    let w3 := allowHeaders w in
    if String.eqb (Method r) "OPTIONS"
    then ((w3, st), Returns)
    else h r w3 st.

(** A handler that notes the request and the response writer it is called
    with, and then does what [h] does. *)
Definition notingHandler {St : Type} (h : Handler St)
  : Handler (list (Request * ResponseWriter) * St) :=
  fun r w st =>
    let '((w1, st1), c) := h r w (snd st) in
    ((w1, (fst st ++ [(r, w)], st1)), c).

(** The header keys that [accessControl] sets. *)
Definition allowKeys : list string :=
  ["Access-Control-Allow-Origin"; "Access-Control-Allow-Methods";
   "Access-Control-Allow-Headers"].

End shipping.

(* ===================================================================== *)
(** * The instrumenting middleware of the string service *)
(* ===================================================================== *)

Module stringsvc.

(** [float64] values, kept as the expressions that compute them: nothing is
    assumed about how floating point rounds. *)
Inductive float64 : Type :=
| F_lit (mantissa exponent : Z)   (* a decimal constant: [1e-3], [1] *)
| F_of_int (n : Z)                (* the conversion [float64(n)] *)
| F_mul (a b : float64).

(** [func toMicroSecond(nanoseconds int64) float64] *)
Definition toMicroSecond (nanoseconds : Z) : float64 :=
  F_mul (F_of_int nanoseconds) (F_lit 1 (-3)).

Definition maxDuration : Z := 2 ^ 63 - 1.
Definition minDuration : Z := - 2 ^ 63.

(** [time.Since(begin).Nanoseconds()] read at clock [now]: the difference of
    the two readings, held at the ends of the range of a [Duration]. *)
Definition time_Since (now begin : Z) : Z :=
  if (maxDuration <? now - begin)%Z then maxDuration
  else if (now - begin <? minDuration)%Z then minDuration
  else (now - begin)%Z.

(** [fmt.Sprint] of a boolean. *)
Definition Sprint_bool (b : bool) : string :=
  if b then "true" else "false".

(** How a method of the service ends. *)
Inductive ending (A : Type) : Type :=
| Return (a : A)
| Panicking (v : value).
Arguments Return {A} _.
Arguments Panicking {A} _.

Section Middleware.
Context {W : Type}.

(** [time.Now()]: the reading of the clock in the state at hand. *)
Variable time_Now : W -> Z.

(** [StringService], the interface that the middleware wraps and offers. *)
Record StringService : Type := mkStringService {
  Uppercase : string -> W -> W * ending (string * option error_value);
  Count : string -> W -> W * ending Z
}.

(** [metrics.Counter]: the label values applied so far by [With], and what
    [Add] does under given label values. *)
Record Counter : Type := mkCounter {
  counter_labels : list string;
  counter_add : list string -> float64 -> W -> W
}.

(** [metrics.Histogram], likewise with [Observe]. *)
Record Histogram : Type := mkHistogram {
  histogram_labels : list string;
  histogram_observe : list string -> float64 -> W -> W
}.

Definition Counter_With (c : Counter) (lvs : list string) : Counter :=
  {| counter_labels := counter_labels c ++ lvs; counter_add := counter_add c |}.

Definition Counter_Add (c : Counter) (delta : float64) : W -> W :=
  counter_add c (counter_labels c) delta.

Definition Histogram_With (h : Histogram) (lvs : list string) : Histogram :=
  {| histogram_labels := histogram_labels h ++ lvs;
     histogram_observe := histogram_observe h |}.

Definition Histogram_Observe (h : Histogram) (v : float64) : W -> W :=
  histogram_observe h (histogram_labels h) v.

(** [type instrumentingMiddleware struct] *)
Record instrumentingMiddleware : Type := mkInstrumenting {
  requestCount : Counter;
  requestLatency : Histogram;
  countResult : Histogram;
  next : StringService
}.

(** [func (mw instrumentingMiddleware) Uppercase(s string)
          (output string, err error)].
    The argument [time.Now()] of the deferred call is read first; the
    deferred call runs when the body returns and when it panics, with the
    named results as they stand then. *)
Definition instrumenting_Uppercase (mw : instrumentingMiddleware) (s : string)
  : W -> W * ending (string * option error_value) :=
  fun w =>
    let begin := time_Now w in
    let (w1, r) := Uppercase (next mw) s w in
    let (output, err) :=
      match r with
      | Return (o, e) => (o, e)
      | Panicking _ => ("", None)
      end in
    let lvs := ["method"; "uppercase"; "error";
                Sprint_bool (match err with Some _ => true | None => false end)]
    in
    let w2 := Counter_Add (Counter_With (requestCount mw) lvs) (F_lit 1 0) w1 in
    let w3 := Histogram_Observe (Histogram_With (requestLatency mw) lvs)
                (toMicroSecond (time_Since (time_Now w2) begin)) w2 in
    (w3, match r with
         | Return _ => Return (output, err)
         | Panicking v => Panicking v
         end).

(** [func (mw instrumentingMiddleware) Count(s string) (n int)] *)
Definition instrumenting_Count (mw : instrumentingMiddleware) (s : string)
  : W -> W * ending Z :=
  fun w =>
    let begin := time_Now w in
    let (w1, r) := Count (next mw) s w in
    let n := match r with
             | Return k => k
             | Panicking _ => 0%Z
             end in
    let lvs := ["method"; "count"; "error"; "false"] in
    let w2 := Counter_Add (Counter_With (requestCount mw) lvs) (F_lit 1 0) w1 in
    let w3 := Histogram_Observe (Histogram_With (requestLatency mw) lvs)
                (toMicroSecond (time_Since (time_Now w2) begin)) w2 in
    let w4 := Histogram_Observe (countResult mw) (F_of_int n) w3 in
    (w4, match r with
         | Return _ => Return n
         | Panicking v => Panicking v
         end).

(** The middleware is itself a [StringService]. *)
Definition asStringService (mw : instrumentingMiddleware) : StringService :=
  {| Uppercase := instrumenting_Uppercase mw;
     Count := instrumenting_Count mw |}.

End Middleware.

Arguments StringService : clear implicits.
Arguments Counter : clear implicits.
Arguments Histogram : clear implicits.
Arguments instrumentingMiddleware : clear implicits.

(** What a metrics backend receives. *)
Inductive sample : Type :=
| Added (metric : string) (lvs : list string) (delta : float64)
| Observed (metric : string) (lvs : list string) (v : float64).

(** A counter, and a histogram, that note every sample in order. *)
Definition notingCounter {W0 : Type} (metric : string)
  : Counter (list sample * W0) :=
  {| counter_labels := [];
     counter_add := fun lvs delta w =>
                      (fst w ++ [Added metric lvs delta], snd w) |}.

Definition notingHistogram {W0 : Type} (metric : string)
  : Histogram (list sample * W0) :=
  {| histogram_labels := [];
     histogram_observe := fun lvs v w =>
                            (fst w ++ [Observed metric lvs v], snd w) |}.

(** A service lifted to states that also carry the noted samples. *)
Definition besideSamples {W0 : Type} (svc : StringService W0)
  : StringService (list sample * W0) :=
  {| Uppercase := fun s w =>
       let (w1, r) := Uppercase svc s (snd w) in ((fst w, w1), r);
     Count := fun s w =>
       let (w1, r) := Count svc s (snd w) in ((fst w, w1), r) |}.

(** The clock of a state that also carries the noted samples. *)
Definition besideClock {W0 : Type} (clock : W0 -> Z)
  : list sample * W0 -> Z :=
  fun w => clock (snd w).

(** The middleware as [main] builds it,
    [instrumentingMiddleware{requestCount, requestLatency, countResult, svc}],
    over metrics that note their samples. *)
Definition notingMiddleware {W0 : Type} (svc : StringService W0)
  : instrumentingMiddleware (list sample * W0) :=
  {| requestCount := notingCounter "request.count";
     requestLatency := notingHistogram "request.latency";
     countResult := notingHistogram "count.values";
     next := besideSamples svc |}.

End stringsvc.

(* ===================================================================== *)
(** * Concrete callers, requests and services *)
(* ===================================================================== *)

Module demo.

(** Two goroutines, one event each; the second gets the lock first. *)
Definition events : list keyvals := [[VStr "a"]; [VStr "b"]].

Definition schedule : list nat := [1; 1; 1; 1; 0; 0; 0; 0].

(** Where that schedule ends over a sink that panics once the event is in
    its buffer. *)
Definition final : Concurrent.state keyvals (list keyvals) :=
  {| Concurrent.mutex := Serialized.Unlocked;
     Concurrent.sink_state := [[VStr "b"]; [VStr "a"]];
     Concurrent.seen :=
       [Concurrent.Acq 1; Concurrent.Enter 1 [VStr "b"];
        Concurrent.Leave 1 [VStr "b"] (Panicked (VStr "boom"));
        Concurrent.Rel 1;
        Concurrent.Acq 0; Concurrent.Enter 0 [VStr "a"];
        Concurrent.Leave 0 [VStr "a"] (Panicked (VStr "boom"));
        Concurrent.Rel 0];
     Concurrent.pool :=
       [{| Concurrent.args := [VStr "a"];
           Concurrent.at_pc := Concurrent.Finished (Panicked (VStr "boom")) |};
        {| Concurrent.args := [VStr "b"];
           Concurrent.at_pc := Concurrent.Finished (Panicked (VStr "boom")) |}]
  |}.

(** A response writer nothing has been written to, with one header set. *)
Definition writer : shipping.ResponseWriter :=
  {| shipping.header := {["Access-Control-Allow-Origin" := ["example.org"]]};
     shipping.status := None;
     shipping.written := [] |}.

Definition request (method : string) : shipping.Request :=
  {| shipping.Method := method; shipping.URL := "/booking/v1/cargos";
     shipping.RequestHeader := ∅; shipping.Body := "" |}.

(** A handler that answers 200 with a body. *)
Definition okHandler : shipping.Handler unit :=
  fun _ w st =>
    (({| shipping.header := shipping.header w;
         shipping.status := Some 200%Z;
         shipping.written := shipping.written w ++ ["ok"] |}, st),
     shipping.Returns).

End demo.

(* ===================================================================== *)
(** * Properties of the levels *)
(* ===================================================================== *)

Section LevelOrder.

Lemma Below_Rank a b : Below a b -> (Rank a < Rank b)%Z.
Proof. induction 1; simpl in *; lia. Qed.

Lemma Rank_Below a b : (Rank a < Rank b)%Z -> Below a b.
Proof.
  destruct a, b; simpl; intros H; try lia;
    first [ constructor; fail
          | apply (Below_trans _ info _); constructor; fail
          | apply (Below_trans _ warn _); constructor; fail
          | apply (Below_trans _ info _); [constructor |];
            apply (Below_trans _ warn _); constructor ].
Qed.

Lemma Compare_Rank a b : Compare a b = (Rank a ?= Rank b)%Z.
Proof. destruct a, b; reflexivity. Qed.

(** C8: [Compare] agrees with the order debug < info < warn < error, is
    antisymmetric and transitive, and [Rank] sends debug, info, warn, error
    to 0, 1, 2, 3, a strictly increasing sequence. *)
Theorem level_order (a b c : Level) :
  (Compare a b = Lt <-> Below a b) /\
  (Compare a b = Eq <-> a = b) /\
  (Compare a b = Gt <-> Below b a) /\
  Compare b a = CompOpp (Compare a b) /\
  (Compare a b <> Gt -> Compare b a <> Gt -> a = b) /\
  (Compare a b = Lt -> Compare b c = Lt -> Compare a c = Lt) /\
  (Compare a b <> Gt -> Compare b c <> Gt -> Compare a c <> Gt) /\
  Compare a b = (Rank a ?= Rank b)%Z /\
  (Below a b <-> (Rank a < Rank b)%Z) /\
  (Rank debug = 0 /\ Rank info = 1 /\ Rank warn = 2 /\ Rank error = 3)%Z /\
  (Rank debug < Rank info < Rank warn /\ Rank warn < Rank error)%Z.
Proof.
  assert (HB : forall x y, Below x y <-> (Rank x < Rank y)%Z)
    by (intros x y; split; [apply Below_Rank | apply Rank_Below]).
  repeat match goal with |- _ /\ _ => split end.
  - rewrite Compare_Rank, Z.compare_lt_iff. symmetry. apply HB.
  - rewrite Compare_Rank, Z.compare_eq_iff.
    split; [destruct a, b; simpl; congruence | intros ->; reflexivity].
  - rewrite Compare_Rank, Z.compare_gt_iff. symmetry. apply HB.
  - destruct a, b; reflexivity.
  - destruct a, b; simpl; congruence.
  - destruct a, b, c; simpl; congruence.
  - destruct a, b, c; simpl; congruence.
  - apply Compare_Rank.
  - apply HB.
  - reflexivity.
  - reflexivity.
  - reflexivity.
  - reflexivity.
  - simpl; lia.
  - simpl; lia.
  - simpl; lia.
Qed.

End LevelOrder.

(* ===================================================================== *)
(** * Recording loggers *)
(* ===================================================================== *)

Section Recording.
Context {E W : Type}.

Lemma recording_Log (next : log_Logger E W) (event : E) (tr : list E) (w : W) :
  Log (recording next) event (tr, w) = forwarded next event tr w.
Proof.
  unfold forwarded. simpl. destruct (Log next event w); reflexivity.
Qed.

Lemma snoc_not_self (l : list E) (x : E) : l <> l ++ [x].
Proof.
  intros H. apply (f_equal (@length E)) in H.
  rewrite List.length_app in H. simpl in H. lia.
Qed.

End Recording.

(* ===================================================================== *)
(** * Properties of the tagger and of the filter *)
(* ===================================================================== *)

Section LevelPackage.
Import level.
Context {W : Type}.
Implicit Types (event before rest : LogEvent) (next : log_Logger LogEvent W).
Implicit Types (tr : list LogEvent) (w : W).

Lemma reservedPairs_app before rest :
  reservedPairs (before ++ rest) = reservedPairs before + reservedPairs rest.
Proof.
  unfold reservedPairs. rewrite List.filter_app, List.length_app. reflexivity.
Qed.

Lemma reservedPairs_cons kv rest :
  reservedPairs (kv :: rest) =
  (if isLevelPair kv then 1 else 0) + reservedPairs rest.
Proof. unfold reservedPairs. simpl. destruct (isLevelPair kv); reflexivity. Qed.

Lemma lastSeverity_none event :
  reservedPairs event = 0 -> lastSeverity event = None.
Proof.
  induction event as [|kv rest IH]; [reflexivity|].
  rewrite reservedPairs_cons. simpl.
  destruct (isLevelPair kv); [discriminate|].
  intros H. rewrite IH by exact H. reflexivity.
Qed.

Lemma lastSeverity_some_app before rest v :
  lastSeverity rest = Some v -> lastSeverity (before ++ rest) = Some v.
Proof.
  intros H. induction before as [|kv before IH]; [exact H|].
  simpl. rewrite IH. reflexivity.
Qed.

Lemma lastSeverity_last before rest v :
  reservedPairs rest = 0 ->
  lastSeverity (before ++ (levelKey, v) :: rest) = Some v.
Proof.
  intros H. apply lastSeverity_some_app. simpl.
  rewrite (lastSeverity_none rest H). reflexivity.
Qed.

(** C3: an event whose last reserved-key pair carries level [L] (whatever
    pairs, reserved or not, come before it) is handed to the wrapped logger
    as it is exactly when [Rank L >= Rank T]; below the threshold nothing is
    handed on and the call returns success. *)
Theorem filter_threshold next (T L : Level) (policy : MissingPolicy)
    before rest tr w :
  reservedPairs rest = 0 ->
  let event := before ++ (levelKey, VLevel L) :: rest in
  let res := Log (NewFilter (recording next) T policy) event (tr, w) in
  lastSeverity event = Some (VLevel L) /\
  ((Rank L >= Rank T)%Z -> res = forwarded next event tr w) /\
  ((Rank L < Rank T)%Z -> res = ((tr, w), Returned None)) /\
  (fst (fst res) = tr ++ [event] <-> (Rank L >= Rank T)%Z).
Proof.
  intros Hrest event res.
  assert (Hlast : lastSeverity event = Some (VLevel L))
    by (apply lastSeverity_last; exact Hrest).
  assert (Hres : res = if (Rank T <=? Rank L)%Z
                       then forwarded next event tr w
                       else ((tr, w), Returned None)).
  { unfold res, NewFilter. cbn [Log]. rewrite Hlast.
    destruct (Rank T <=? Rank L)%Z; [apply recording_Log | reflexivity]. }
  split; [exact Hlast|].
  destruct (Z.leb_spec (Rank T) (Rank L)) as [Hle|Hlt]; rewrite Hres.
  - split; [reflexivity|]. split; [lia|].
    split; [lia | reflexivity].
  - split; [lia|]. split; [reflexivity|]. simpl.
    split; [intros H; apply snoc_not_self in H; contradiction | lia].
Qed.

(** C4, as amended: for an event without the reserved key, the event is
    handed to the wrapped logger exactly when the policy is PassThrough, and
    the call then returns the wrapped logger's result; under TreatAsError the
    wrapped logger is not called and the call returns [ErrNoLevel], which no
    sink error equals; under SquelchSilently the wrapped logger is not called
    and the call returns success.  So an error comes back without a delivery
    exactly when the policy is TreatAsError. *)
Theorem filter_missing_policy next (T : Level) (policy : MissingPolicy)
    event tr w :
  reservedPairs event = 0 ->
  let res := Log (NewFilter (recording next) T policy) event (tr, w) in
  (policy = PassThrough -> res = forwarded next event tr w) /\
  (policy = TreatAsError -> res = ((tr, w), Returned (Some ErrNoLevel))) /\
  (policy = SquelchSilently -> res = ((tr, w), Returned None)) /\
  (fst (fst res) = tr ++ [event] <-> policy = PassThrough) /\
  (fst (fst res) = tr /\ isError (snd res) = true <-> policy = TreatAsError) /\
  (forall msg, ErrNoLevel <> SinkError msg).
Proof.
  intros Hnone res.
  assert (Hres : res = match policy with
                       | SquelchSilently => ((tr, w), Returned None)
                       | PassThrough => forwarded next event tr w
                       | TreatAsError => ((tr, w), Returned (Some ErrNoLevel))
                       end).
  { unfold res, NewFilter. cbn [Log].
    rewrite (lastSeverity_none event Hnone).
    destruct policy; [reflexivity | apply recording_Log | reflexivity]. }
  rewrite Hres. clear Hres res.
  pose proof (snoc_not_self tr event) as Hne.
  destruct policy; simpl.
  - repeat match goal with |- _ /\ _ => split end;
      first [ discriminate | reflexivity | idtac ].
    + split; [intros H; contradiction | discriminate].
    + split; [intros [_ H]; discriminate | discriminate].
  - repeat match goal with |- _ /\ _ => split end;
      first [ discriminate | reflexivity | idtac ].
    + split; reflexivity.
    + split; [intros [H _]; symmetry in H; contradiction | discriminate].
  - repeat match goal with |- _ /\ _ => split end;
      first [ discriminate | reflexivity | idtac ].
    + split; [intros H; contradiction | discriminate].
    + split; [reflexivity | intros _; split; reflexivity].
Qed.

(** C5, as amended: the tagger hands the wrapped logger the event with the
    pair [(levelKey, lvl)] appended and returns its result; the pairs of the
    input stay in place before it, the new pair is the last one and is the
    last occurrence of the reserved key, and the event has one reserved-key
    pair more than the input: exactly one when the input had none.  The four
    named constructors are [Tag] at their level. *)
Theorem tagger_appends next (lvl : Level) event tr w :
  let extended := event ++ [(levelKey, VLevel lvl)] in
  Log (Tag lvl (recording next)) event (tr, w) = forwarded next extended tr w /\
  take (length event) extended = event /\
  last extended = Some (levelKey, VLevel lvl) /\
  lastSeverity extended = Some (VLevel lvl) /\
  reservedPairs extended = S (reservedPairs event) /\
  (reservedPairs extended = 1 <-> reservedPairs event = 0) /\
  Debug next = Tag debug next /\ Info next = Tag info next /\
  Warn next = Tag warn next /\ Error next = Tag error next.
Proof.
  intros extended.
  assert (Hcount : reservedPairs extended = S (reservedPairs event)).
  { unfold extended. rewrite reservedPairs_app.
    change (reservedPairs [(levelKey, VLevel lvl)]) with 1. lia. }
  repeat match goal with |- _ /\ _ => split end; try reflexivity.
  - unfold Tag. cbn [Log]. apply recording_Log.
  - unfold extended. apply take_app_length.
  - unfold extended. apply last_snoc.
  - unfold extended. apply lastSeverity_last. reflexivity.
  - exact Hcount.
  - lia.
Qed.

(** C6: the filter hands the wrapped logger the event it was given, once,
    when it accepts the event, and then returns the wrapped logger's result;
    when it rejects the event it does not call the wrapped logger and leaves
    its state as it was. *)
Theorem filter_frame next (T : Level) (policy : MissingPolicy) event tr w :
  let res := Log (NewFilter (recording next) T policy) event (tr, w) in
  (if accepts T policy event
   then res = forwarded next event tr w
   else fst res = (tr, w)) /\
  (fst (fst res) = tr ++ [event] \/ fst (fst res) = tr) /\
  (fst (fst res) = tr ++ [event] <-> accepts T policy event = true).
Proof.
  intros res.
  assert (Hres : res = if accepts T policy event
                       then forwarded next event tr w
                       else ((tr, w), match lastSeverity event, policy with
                                      | Some (VLevel _), _ => Returned None
                                      | _, TreatAsError =>
                                          Returned (Some ErrNoLevel)
                                      | _, _ => Returned None
                                      end)).
  { unfold res, NewFilter, accepts. cbn [Log].
    destruct (lastSeverity event) as [[| | | |L]|];
      try (destruct policy; first [apply recording_Log | reflexivity]).
    destruct (Rank T <=? Rank L)%Z; [apply recording_Log | reflexivity]. }
  rewrite Hres. clear Hres res.
  pose proof (snoc_not_self tr event) as Hne.
  destruct (accepts T policy event); simpl.
  - split; [reflexivity|]. split; [left; reflexivity|].
    split; reflexivity.
  - split; [reflexivity|]. split; [right; reflexivity|].
    split; [intros H; contradiction | discriminate].
Qed.

End LevelPackage.

(* ===================================================================== *)
(** * Properties of the serializing logger, one caller at a time *)
(* ===================================================================== *)

Section SerializedFacts.
Import Serialized.
Context {E W : Type}.
Implicit Types (kvs : E) (w : world E W) (l : serializedLogger E W).

Lemma set_mtx_back l : mtx l = Unlocked -> set_mtx Unlocked (set_mtx Locked l) = l.
Proof. destruct l as [m lg]. simpl. intros ->. reflexivity. Qed.

(** The whole of one call of [Log] that finds the mutex unlocked. *)
Lemma Log_unlocked kvs w :
  mtx (self w) = Unlocked ->
  serializedLogger_Log kvs w =
  ({| self := self w;
      sink := fst (Log (Logger (self w)) kvs (sink w));
      trace := trace w ++ [Acquire; CallLogger kvs; Release] |},
   exit_of (snd (Log (Logger (self w)) kvs (sink w)))).
Proof.
  intros Hm. unfold serializedLogger_Log, bind, defer, mtx_Lock.
  rewrite Hm. unfold Logger_Log. cbn [self sink trace set_mtx Logger].
  destruct (Log (Logger (self w)) kvs (sink w)) as [s o].
  unfold mtx_Unlock. cbn [self sink trace set_mtx mtx fst snd].
  destruct o; cbn [self sink trace]; rewrite <- !app_assoc; cbn [app];
    rewrite (set_mtx_back (self w) Hm); reflexivity.
Qed.

(** A call of [Log] that finds the mutex locked waits, and does nothing
    while it waits. *)
Lemma Log_locked kvs w :
  mtx (self w) = Locked -> serializedLogger_Log kvs w = (w, Block).
Proof.
  intros Hm. unfold serializedLogger_Log, bind, mtx_Lock. rewrite Hm.
  reflexivity.
Qed.

(** C2: a call of [Log] on the wrapper acquires the lock, calls the wrapped
    logger's [Log] once, releases the lock however that call ended, and ends
    the way the wrapped call did: an error [e] of the wrapped logger comes
    back as [e], and success as success. *)
Theorem Log_returns_wrapped_result kvs w :
  mtx (self w) = Unlocked ->
  let inner := Log (Logger (self w)) kvs (sink w) in
  let res := serializedLogger_Log kvs w in
  trace (fst res) = trace w ++ [Acquire; CallLogger kvs; Release] /\
  mtx (self (fst res)) = Unlocked /\
  sink (fst res) = fst inner /\
  snd res = exit_of (snd inner) /\
  (forall e, snd inner = Returned (Some e) -> snd res = Normal (Some e)) /\
  (snd inner = Returned None -> snd res = Normal None).
Proof.
  intros Hm inner res. unfold res. rewrite (Log_unlocked kvs w Hm).
  cbn [fst snd trace self sink]. fold inner.
  repeat match goal with |- _ /\ _ => split end;
    try reflexivity; try exact Hm.
  - intros e ->. reflexivity.
  - intros ->. reflexivity.
Qed.

(** C10: when the wrapped logger panics, the deferred [Unlock] still runs:
    the panic goes on to the caller, the mutex is unlocked when [Log] has
    ended, and the next caller of [Log] acquires it and is not left waiting.
    The same holds for every ending of the wrapped call. *)
Theorem Log_unlocks_after_panic kvs w :
  mtx (self w) = Unlocked ->
  let inner := Log (Logger (self w)) kvs (sink w) in
  let res := serializedLogger_Log kvs w in
  (forall v, snd inner = Panicked v -> snd res = Panic v) /\
  mtx (self (fst res)) = Unlocked /\
  last (trace (fst res)) = Some Release /\
  (forall kvs', snd (serializedLogger_Log kvs' (fst res)) <> Block) /\
  (forall kvs', exists tr,
      trace (fst (serializedLogger_Log kvs' (fst res)))
      = trace (fst res) ++ Acquire :: tr).
Proof.
  intros Hm inner res. unfold res. rewrite (Log_unlocked kvs w Hm).
  cbn [fst snd trace self sink]. fold inner.
  repeat match goal with |- _ /\ _ => split end.
  - intros v ->. reflexivity.
  - exact Hm.
  - rewrite last_app. reflexivity.
  - intros kvs'. rewrite Log_unlocked by exact Hm.
    cbn [snd]. destruct (snd _); discriminate.
  - intros kvs'. rewrite Log_unlocked by exact Hm.
    cbn [fst trace]. eexists. reflexivity.
Qed.

(** The whole of a run of calls that starts with the mutex unlocked. *)
Lemma log_all_unlocked (evs : list E) : forall w,
  mtx (self w) = Unlocked ->
  log_all evs w =
  ({| self := self w;
      sink := fst (sink_all (Logger (self w)) evs (sink w));
      trace := trace w ++
               flat_map (fun kvs => [Acquire; CallLogger kvs; Release]) evs |},
   map exit_of (snd (sink_all (Logger (self w)) evs (sink w)))).
Proof.
  induction evs as [|kvs rest IH]; intros w Hm.
  - simpl. rewrite app_nil_r. destruct w; reflexivity.
  - cbn [log_all sink_all]. rewrite (Log_unlocked kvs w Hm).
    destruct (Log (Logger (self w)) kvs (sink w)) as [s o] eqn:Hlog.
    cbn [fst snd].
    rewrite IH by exact Hm. cbn [self sink trace].
    destruct (sink_all (Logger (self w)) rest s) as [s2 os].
    cbn [fst snd flat_map map]. rewrite <- app_assoc.
    destruct o; reflexivity.
Qed.

(** C7: the wrapper is a mutex and a logger and nothing else; it is built
    with the mutex unlocked around the given logger; and through any run of
    calls of [Log] the logger stays the one given and each call finds and
    leaves the mutex unlocked: every acquire is followed by one call of the
    wrapped logger and the release. *)
Theorem serializedLogger_state_fixed (logger : log_Logger E W)
    (evs : list E) (s : W) :
  let l := newSerializedLogger logger in
  let res := log_all evs {| self := l; sink := s; trace := [] |} in
  (forall l', l' = {| mtx := mtx l'; Logger := Logger l' |}) /\
  mtx l = Unlocked /\ Logger l = logger /\
  self (fst res) = l /\
  trace (fst res)
  = flat_map (fun kvs => [Acquire; CallLogger kvs; Release]) evs /\
  sink (fst res) = fst (sink_all logger evs s) /\
  snd res = map exit_of (snd (sink_all logger evs s)).
Proof.
  intros l res. unfold res. rewrite log_all_unlocked by reflexivity.
  cbn [fst snd self sink trace app].
  repeat match goal with |- _ /\ _ => split end; try reflexivity.
  intros [m lg]. reflexivity.
Qed.

End SerializedFacts.

Section SerializedArguments.
Import Serialized.
Context {W : Type}.

(** C9: the wrapper hands the wrapped logger the argument list it was
    called with, the same values in the same order, and nothing else: a
    recording logger under the wrapper notes [kvs] itself, once. *)
Theorem Log_passes_keyvals (next : log_Logger keyvals W) (kvs : keyvals)
    (noted : list keyvals) (s : W) (tr : list (effect keyvals)) :
  let l := newSerializedLogger (recording next) in
  let res := serializedLogger_Log kvs
               {| self := l; sink := (noted, s); trace := tr |} in
  fst (sink (fst res)) = noted ++ [kvs] /\
  sink (fst res) = fst (forwarded next kvs noted s) /\
  snd res = exit_of (snd (forwarded next kvs noted s)) /\
  trace (fst res) = tr ++ [Acquire; CallLogger kvs; Release].
Proof.
  intros l res. unfold res. rewrite Log_unlocked by reflexivity.
  cbn [fst snd self sink trace l newSerializedLogger Logger].
  rewrite recording_Log.
  repeat match goal with |- _ /\ _ => split end; reflexivity.
Qed.

End SerializedArguments.

(* ===================================================================== *)
(** * Properties of the serializing logger under concurrent callers *)
(* ===================================================================== *)

Section ConcurrentFacts.
Import Serialized Concurrent.
Context {E W : Type}.
Variable next : log_Logger E W.
Implicit Types (st : state E W) (g : goroutine E) (ph : phase E).
Implicit Types (obs : list (observation E)) (l : list (goroutine E)).

Lemma total_insert (f : goroutine E -> nat) l : forall i g g',
  l !! i = Some g -> total f (<[i:=g']> l) + f g = total f l + f g'.
Proof.
  induction l as [|x l IH]; intros [|i] g g' H; simpl in H; try discriminate.
  - injection H as ->. unfold total. simpl. lia.
  - unfold total in *. simpl. specialize (IH i g g' H). lia.
Qed.

Lemma total_bound l : total progress l <= 4 * length l.
Proof.
  unfold total. induction l as [|x l IH]; simpl; [lia|].
  assert (progress x <= 4) by (unfold progress; destruct (at_pc x); lia).
  lia.
Qed.

Lemma total_unfinished l :
  total progress l < 4 * length l ->
  exists i g, l !! i = Some g /\ is_finished g = false.
Proof.
  unfold total. induction l as [|x l IH]; simpl; [lia|].
  intros H. destruct (is_finished x) eqn:Hx.
  - assert (progress x = 4)
      by (unfold progress, is_finished in *; destruct (at_pc x);
          congruence).
    destruct IH as (i & g & Hi & Hg); [lia|].
    exists (S i), g. split; assumption.
  - exists 0, x. split; [reflexivity | assumption].
Qed.

Lemma total_finished l :
  total progress l = 4 * length l -> Forall (fun g => is_finished g = true) l.
Proof.
  unfold total. induction l as [|x l IH]; simpl; intros H; constructor.
  - pose proof (total_bound l) as Hb. unfold total in Hb.
    unfold progress, is_finished in *.
    destruct (at_pc x); first [reflexivity | lia].
  - apply IH. pose proof (total_bound l) as Hb. unfold total in Hb.
    assert (progress x <= 4) by (unfold progress; destruct (at_pc x); lia).
    lia.
Qed.

Lemma entered_calls_snoc obs x :
  entered_calls (obs ++ [x]) = entered_calls obs ++ entered_calls [x].
Proof.
  induction obs as [|y obs IH]; [reflexivity|].
  destruct y; simpl; rewrite IH; reflexivity.
Qed.

Lemma completed_calls_snoc obs x :
  completed_calls (obs ++ [x]) = completed_calls obs ++ completed_calls [x].
Proof.
  induction obs as [|y obs IH]; [reflexivity|].
  destruct y; simpl; rewrite IH; reflexivity.
Qed.

Lemma entries_of_snoc i obs x :
  entries_of i (obs ++ [x]) = entries_of i obs ++ entries_of i [x].
Proof.
  induction obs as [|y obs IH]; [reflexivity|].
  destruct y; simpl; rewrite IH; try reflexivity.
  destruct (Nat.eqb i g); reflexivity.
Qed.

Lemma sink_all_snoc (evs : list E) (kvs : E) : forall s,
  fst (sink_all next (evs ++ [kvs]) s)
  = fst (Log next kvs (fst (sink_all next evs s))).
Proof.
  induction evs as [|e evs IH]; intros s; simpl.
  - destruct (Log next kvs s); reflexivity.
  - destruct (Log next e s) as [s1 o]. specialize (IH s1).
    destruct (sink_all next (evs ++ [kvs]) s1).
    destruct (sink_all next evs s1). simpl in *. exact IH.
Qed.

(** What a step is, case by case. *)
Lemma step_cases i st st' :
  step next i st = Some st' ->
  exists g, pool st !! i = Some g /\
    ((at_pc g = AtLock /\ mutex st = Unlocked /\
      st' = {| mutex := Locked; sink_state := sink_state st;
               seen := seen st ++ [Acq i];
               pool := <[i := move AtCall g]> (pool st) |}) \/
     (at_pc g = AtCall /\
      st' = {| mutex := mutex st; sink_state := sink_state st;
               seen := seen st ++ [Enter i (args g)];
               pool := <[i := move InLogger g]> (pool st) |}) \/
     (at_pc g = InLogger /\
      st' = {| mutex := mutex st;
               sink_state := fst (Log next (args g) (sink_state st));
               seen := seen st ++
                 [Leave i (args g) (snd (Log next (args g) (sink_state st)))];
               pool := <[i := move (AtUnlock
                         (snd (Log next (args g) (sink_state st)))) g]>
                         (pool st) |}) \/
     (exists o, at_pc g = AtUnlock o /\ mutex st = Locked /\
      st' = {| mutex := Unlocked; sink_state := sink_state st;
               seen := seen st ++ [Rel i];
               pool := <[i := move (Finished o) g]> (pool st) |})).
Proof.
  unfold step. destruct (pool st !! i) as [g|] eqn:Hg; [|discriminate].
  intros H. exists g. split; [reflexivity|].
  destruct (at_pc g) as [| | |o|o] eqn:Hpc.
  - destruct (mutex st) eqn:Hm; [|discriminate].
    injection H as <-. left. auto.
  - injection H as <-. right; left. auto.
  - destruct (Log next (args g) (sink_state st)) as [s o] eqn:Hl.
    injection H as <-. right; right; left. auto.
  - destruct (mutex st) eqn:Hm; [discriminate|].
    injection H as <-. right; right; right. exists o. auto.
  - discriminate.
Qed.

Lemma agrees_other ph ph' i j g :
  j <> i ->
  (holder ph = None \/ holder ph = Some i) ->
  (holder ph' = None \/ holder ph' = Some i) ->
  agrees ph j g -> agrees ph' j g.
Proof.
  intros Hne Hph Hph'. unfold agrees.
  destruct (at_pc g); intros H;
    try (subst ph; simpl in Hph; destruct Hph; congruence);
    destruct Hph'; congruence.
Qed.

(** The part of the invariant that ties the pool to the phase, after
    goroutine [i] has moved from [g] to [g']. *)
Lemma phase_after_move ph ph' i g g' l :
  l !! i = Some g ->
  (holder ph = None \/ holder ph = Some i) ->
  (holder ph' = None \/ holder ph' = Some i) ->
  agrees ph' i g' ->
  (holder ph' = Some i -> holding g' = true) ->
  (forall j g0, l !! j = Some g0 -> agrees ph j g0) ->
  (forall j g0, <[i:=g']> l !! j = Some g0 -> agrees ph' j g0) /\
  (forall h, holder ph' = Some h ->
             exists g0, <[i:=g']> l !! h = Some g0 /\ holding g0 = true).
Proof.
  intros Hi Hph Hph' Hag Hhold Hall.
  assert (Hlt : i < length l) by (apply lookup_lt_Some in Hi; exact Hi).
  split.
  - intros j g0 Hj. destruct (decide (j = i)) as [->|Hne].
    + rewrite list_lookup_insert_eq in Hj by exact Hlt.
      injection Hj as <-. exact Hag.
    + rewrite list_lookup_insert_ne in Hj by congruence.
      apply (agrees_other ph ph' i j g0 Hne Hph Hph'). apply Hall, Hj.
  - intros h Hh. destruct Hph' as [Hn|Hs]; [congruence|].
    assert (h = i) by congruence. subst h.
    exists g'. split; [apply list_lookup_insert_eq, Hlt | apply Hhold, Hs].
Qed.

Lemma own_after_move obs x i g g' l :
  l !! i = Some g ->
  (forall j, j <> i -> entries_of j [x] = []) ->
  entries_of i obs ++ entries_of i [x]
  = (if Nat.ltb 1 (progress g') then [args g'] else []) ->
  (forall j g0, l !! j = Some g0 ->
     entries_of j obs = if Nat.ltb 1 (progress g0) then [args g0] else []) ->
  forall j g0, <[i:=g']> l !! j = Some g0 ->
     entries_of j (obs ++ [x])
     = if Nat.ltb 1 (progress g0) then [args g0] else [].
Proof.
  intros Hi Hx Hnew Hown j g0 Hj.
  assert (Hlt : i < length l) by (apply lookup_lt_Some in Hi; exact Hi).
  rewrite entries_of_snoc. destruct (decide (j = i)) as [->|Hne].
  - rewrite list_lookup_insert_eq in Hj by exact Hlt.
    injection Hj as <-. exact Hnew.
  - rewrite list_lookup_insert_ne in Hj by congruence.
    rewrite (Hx j Hne), app_nil_r. apply Hown, Hj.
Qed.

Lemma start_lookup (evs : list E) : forall i g,
  map (fun kvs => {| args := kvs; at_pc := AtLock |}) evs !! i = Some g ->
  at_pc g = AtLock /\ evs !! i = Some (args g).
Proof.
  induction evs as [|e evs IH]; intros [|i] g H; simpl in H;
    try discriminate.
  - injection H as <-. split; reflexivity.
  - apply IH, H.
Qed.

Lemma start_total (f : goroutine E -> nat) (evs : list E) :
  (forall kvs, f {| args := kvs; at_pc := AtLock |} = 0) ->
  total f (map (fun kvs => {| args := kvs; at_pc := AtLock |}) evs) = 0.
Proof.
  intros Hf. unfold total. induction evs as [|e evs IH]; [reflexivity|].
  simpl. rewrite Hf, IH. reflexivity.
Qed.

Lemma Inv_start (evs : list E) (s : W) : Inv next s (start evs s).
Proof.
  constructor; cbn [start mutex sink_state seen pool].
  - exists Idle. split; [constructor|]. split; [reflexivity|]. split.
    + intros i g Hi. apply start_lookup in Hi as [Hpc _].
      unfold agrees. rewrite Hpc. discriminate.
    + discriminate.
  - rewrite start_total by reflexivity. reflexivity.
  - rewrite start_total by reflexivity. reflexivity.
  - intros i g Hi. apply start_lookup in Hi as [Hpc _].
    unfold progress. rewrite Hpc. reflexivity.
  - reflexivity.
Qed.

(** The values of the counters of a goroutine whose place is known. *)
Ltac counters g Hpc :=
  let He := fresh "He" in
  let Hl := fresh "Hl" in
  let Hp := fresh "Hp" in
  pose proof (eq_refl (has_entered g)) as He;
  unfold has_entered at 2 in He; rewrite Hpc in He;
  pose proof (eq_refl (has_left g)) as Hl;
  unfold has_left at 2 in Hl; rewrite Hpc in Hl;
  pose proof (eq_refl (progress g)) as Hp;
  unfold progress at 2 in Hp; rewrite Hpc in Hp.

Lemma step_Inv (s0 : W) i st st' :
  Inv next s0 st -> step next i st = Some st' -> Inv next s0 st'.
Proof.
  intros [(ph & Hser & Hmx & Hag & Hho) Hent Hleft Hown Hsink] Hstep.
  apply step_cases in Hstep as (g & Hg & Hcase).
  pose proof (Hag i g Hg) as Hagi. unfold agrees in Hagi.
  pose proof (fun g' => total_insert has_entered (pool st) i g g' Hg) as Te.
  pose proof (fun g' => total_insert has_left (pool st) i g g' Hg) as Tl.
  pose proof (Hown i g Hg) as Howni.
  destruct Hcase as [(Hpc & Hm & ->) | [(Hpc & ->) | [(Hpc & ->) |
                     (o & Hpc & Hm & ->)]]];
    rewrite Hpc in Hagi; counters g Hpc; rewrite Hp in Howni;
    cbn [Nat.ltb Nat.leb] in Howni.
  - (* [l.mtx.Lock()] returns *)
    assert (ph = Idle) by (destruct ph; simpl in Hmx; congruence). subst ph.
    specialize (Te (move AtCall g)). specialize (Tl (move AtCall g)).
    constructor; cbn [mutex sink_state seen pool].
    + exists (Held i).
      destruct (phase_after_move Idle (Held i) i g (move AtCall g) (pool st)
                  Hg) as [A B];
        [left; reflexivity | right; reflexivity | reflexivity | reflexivity
        | exact Hag |].
      split; [constructor; exact Hser|]. split; [reflexivity|].
      split; assumption.
    + rewrite entered_calls_snoc, length_app. cbn in Te |- *. lia.
    + rewrite completed_calls_snoc, length_app. cbn in Tl |- *. lia.
    + apply (own_after_move _ _ i g (move AtCall g) _ Hg).
      * intros j _. reflexivity.
      * rewrite Howni. reflexivity.
      * exact Hown.
    + rewrite completed_calls_snoc, app_nil_r. exact Hsink.
  - (* the wrapped logger is entered *)
    subst ph.
    specialize (Te (move InLogger g)). specialize (Tl (move InLogger g)).
    constructor; cbn [mutex sink_state seen pool].
    + exists (Inside i (args g)).
      destruct (phase_after_move (Held i) (Inside i (args g)) i g
                  (move InLogger g) (pool st) Hg) as [A B];
        [right; reflexivity | right; reflexivity | reflexivity | reflexivity
        | exact Hag |].
      split; [constructor; exact Hser|]. split; [exact Hmx|].
      split; assumption.
    + rewrite entered_calls_snoc, length_app. cbn in Te |- *. lia.
    + rewrite completed_calls_snoc, length_app. cbn in Tl |- *. lia.
    + apply (own_after_move _ _ i g (move InLogger g) _ Hg).
      * intros j Hne. cbn. apply Nat.eqb_neq in Hne. rewrite Hne.
        reflexivity.
      * rewrite Howni. cbn. rewrite Nat.eqb_refl. reflexivity.
      * exact Hown.
    + rewrite completed_calls_snoc, app_nil_r. exact Hsink.
  - (* the wrapped logger returns or panics *)
    subst ph.
    set (o := snd (Log next (args g) (sink_state st))).
    specialize (Te (move (AtUnlock o) g)).
    specialize (Tl (move (AtUnlock o) g)).
    constructor; cbn [mutex sink_state seen pool].
    + exists (After i).
      destruct (phase_after_move (Inside i (args g)) (After i) i g
                  (move (AtUnlock o) g) (pool st) Hg) as [A B];
        [right; reflexivity | right; reflexivity | reflexivity | reflexivity
        | exact Hag |].
      split; [econstructor; exact Hser|]. split; [exact Hmx|].
      split; assumption.
    + rewrite entered_calls_snoc, length_app. cbn in Te |- *. lia.
    + rewrite completed_calls_snoc, length_app. cbn in Tl |- *. lia.
    + apply (own_after_move _ _ i g (move (AtUnlock o) g) _ Hg).
      * intros j _. reflexivity.
      * rewrite Howni. reflexivity.
      * exact Hown.
    + rewrite completed_calls_snoc. cbn [completed_calls].
      rewrite sink_all_snoc, <- Hsink. reflexivity.
  - (* the deferred [l.mtx.Unlock()] *)
    subst ph.
    specialize (Te (move (Finished o) g)).
    specialize (Tl (move (Finished o) g)).
    constructor; cbn [mutex sink_state seen pool].
    + exists Idle.
      destruct (phase_after_move (After i) Idle i g
                  (move (Finished o) g) (pool st) Hg) as [A B];
        [right; reflexivity | left; reflexivity | discriminate | discriminate
        | exact Hag |].
      split; [constructor; exact Hser|]. split; [reflexivity|].
      split; assumption.
    + rewrite entered_calls_snoc, length_app. cbn in Te |- *. lia.
    + rewrite completed_calls_snoc, length_app. cbn in Tl |- *. lia.
    + apply (own_after_move _ _ i g (move (Finished o) g) _ Hg).
      * intros j _. reflexivity.
      * rewrite Howni. reflexivity.
      * exact Hown.
    + rewrite completed_calls_snoc, app_nil_r. exact Hsink.
Qed.

Lemma run_Inv (s0 : W) (sched : list nat) : forall st st',
  Inv next s0 st -> run next sched st = Some st' -> Inv next s0 st'.
Proof.
  induction sched as [|i sched IH]; intros st st' HI H; simpl in H.
  - injection H as <-. exact HI.
  - destruct (step next i st) as [st1|] eqn:Hs; [|discriminate].
    apply (IH st1); [apply (step_Inv s0 i st); assumption | exact H].
Qed.

Lemma run_snoc (sched : list nat) (i : nat) : forall st,
  run next (sched ++ [i]) st
  = match run next sched st with
    | Some st1 => step next i st1
    | None => None
    end.
Proof.
  induction sched as [|j sched IH]; intros st; simpl.
  - destruct (step next i st); reflexivity.
  - destruct (step next j st); [apply IH | reflexivity].
Qed.

Lemma map_args_insert l : forall i g g',
  l !! i = Some g -> args g' = args g ->
  map args (<[i:=g']> l) = map args l.
Proof.
  induction l as [|x l IH]; intros [|i] g g' H Ha; simpl in H;
    try discriminate.
  - injection H as ->. simpl. rewrite Ha. reflexivity.
  - simpl. f_equal. apply (IH i g g' H Ha).
Qed.

Lemma map_args_lookup l : forall i kvs,
  map args l !! i = Some kvs -> exists g, l !! i = Some g /\ args g = kvs.
Proof.
  induction l as [|x l IH]; intros [|i] kvs H; simpl in H; try discriminate.
  - injection H as <-. exists x. split; reflexivity.
  - apply IH, H.
Qed.

(** A step is one statement of one goroutine: it adds one to the work done,
    and it changes neither the number of goroutines nor their arguments. *)
Lemma step_progress i st st' :
  step next i st = Some st' ->
  total progress (pool st') = S (total progress (pool st)) /\
  length (pool st') = length (pool st) /\
  map args (pool st') = map args (pool st).
Proof.
  intros Hstep. apply step_cases in Hstep as (g & Hg & Hcase).
  pose proof (fun g' => total_insert progress (pool st) i g g' Hg) as Tp.
  destruct Hcase as [(Hpc & Hm & ->) | [(Hpc & ->) | [(Hpc & ->) |
                     (o & Hpc & Hm & ->)]]];
    counters g Hpc; cbn [pool]; rewrite length_insert;
    (split; [ match goal with
              | |- context [<[i:=?g']> _] => specialize (Tp g')
              end; cbn in Tp; lia
            | split; [reflexivity
                     | apply (map_args_insert _ i g); [exact Hg|reflexivity]]]).
Qed.

Lemma run_progress (sched : list nat) : forall st st',
  run next sched st = Some st' ->
  total progress (pool st') = total progress (pool st) + length sched /\
  length (pool st') = length (pool st) /\
  map args (pool st') = map args (pool st).
Proof.
  induction sched as [|i sched IH]; intros st st' H; simpl in H.
  - injection H as <-. simpl. split; [lia | split; reflexivity].
  - destruct (step next i st) as [st1|] eqn:Hs; [|discriminate].
    destruct (step_progress i st st1 Hs) as (P1 & P2 & P3).
    destruct (IH st1 st' H) as (Q1 & Q2 & Q3). simpl.
    split; [lia | split; congruence].
Qed.

Lemma agrees_holding ph i g :
  agrees ph i g -> holding g = true -> holder ph = Some i.
Proof.
  unfold agrees, holding.
  destruct (at_pc g); intros H Hh; try discriminate; subst ph; reflexivity.
Qed.

(** No deadlock: while some goroutine has work left, some goroutine can
    move. *)
Lemma Inv_can_step (s0 : W) st :
  Inv next s0 st ->
  total progress (pool st) < 4 * length (pool st) ->
  exists i st', step next i st = Some st'.
Proof.
  intros [(ph & Hser & Hmx & Hag & Hho) _ _ _ _] Hwork.
  destruct (holder ph) as [h|] eqn:Hh.
  - destruct (Hho h eq_refl) as (g & Hg & Hold).
    pose proof (Hag h g Hg) as Ha. unfold agrees in Ha.
    exists h. unfold step. rewrite Hg. unfold holding in Hold.
    destruct (at_pc g); try discriminate.
    + eexists; reflexivity.
    + destruct (Log next (args g) (sink_state st)). eexists; reflexivity.
    + subst ph. simpl in Hmx. rewrite Hmx. eexists; reflexivity.
  - assert (ph = Idle) by (destruct ph; simpl in Hh; congruence). subst ph.
    destruct (total_unfinished _ Hwork) as (i & g & Hg & Hfin).
    pose proof (Hag i g Hg) as Ha. unfold agrees in Ha.
    exists i. unfold step. rewrite Hg. unfold is_finished in Hfin.
    destruct (at_pc g); try discriminate.
    simpl in Hmx. rewrite Hmx. eexists; reflexivity.
Qed.

(** In a serial history every call that was entered has completed, but for
    the one that is open. *)
Lemma Serial_calls ph obs :
  Serial ph obs ->
  entered_calls obs
  = completed_calls obs ++ match ph with
                           | Inside _ kvs => [kvs]
                           | _ => []
                           end.
Proof.
  induction 1 as [|obs g H IH|obs g kvs H IH|obs g kvs o H IH|obs g H IH];
    try reflexivity;
    rewrite entered_calls_snoc, completed_calls_snoc, IH; cbn;
    rewrite ?app_nil_r; reflexivity.
Qed.

(** The check [scan] accepts the serial histories. *)
Lemma scan_snoc obs x : forall ph0 ph,
  scan ph0 obs = Some ph -> scan ph0 (obs ++ [x]) = scan ph [x].
Proof.
  induction obs as [|y obs IH]; intros ph0 ph H.
  - injection H as ->. reflexivity.
  - destruct y; cbn [app scan] in H |- *; destruct ph0; try discriminate;
      try (apply IH; exact H);
      (destruct (Nat.eqb _ _); [apply IH; exact H | discriminate]).
Qed.

Lemma Serial_scan ph obs : Serial ph obs -> scan Idle obs = Some ph.
Proof.
  induction 1; [reflexivity | ..];
    match goal with IH : scan _ _ = Some _ |- _ =>
      rewrite (scan_snoc _ _ _ _ IH) end;
    cbn; rewrite ?Nat.eqb_refl; reflexivity.
Qed.

(** Some schedule of any length up to four steps per goroutine runs. *)
Lemma schedule_exists (evs : list E) (s : W) (k : nat) :
  k <= 4 * length evs ->
  exists sched st, length sched = k /\ run next sched (start evs s) = Some st.
Proof.
  induction k as [|k IH]; intros Hk.
  - exists [], (start evs s). split; reflexivity.
  - destruct IH as (sched & st & Hlen & Hrun); [lia|].
    destruct (run_progress sched _ _ Hrun) as (P1 & P2 & _).
    assert (P0 : total progress (pool (start evs s)) = 0)
      by (apply start_total; reflexivity).
    assert (PL : length (pool (start evs s)) = length evs)
      by (simpl; apply length_map).
    destruct (Inv_can_step s st) as (i & st' & Hstep).
    + apply (run_Inv s sched (start evs s)); [apply Inv_start | exact Hrun].
    + lia.
    + exists (sched ++ [i]), st'. split.
      * rewrite length_app. simpl. lia.
      * rewrite run_snoc, Hrun. exact Hstep.
Qed.

(** C1: goroutines that each call [Log] once are served one at a time.
    Whatever the schedule, the history is serial (an [Enter] of the wrapped
    logger comes only when no call of it is open), at most one goroutine
    stands between its [Lock] and its [Unlock], no schedule gets stuck
    before every goroutine has finished, and schedules that finish exist.
    When all [N] goroutines have finished the wrapped logger has been
    entered and left exactly [N] times, once for each goroutine with that
    goroutine's arguments, and its state is that of running it alone over
    the calls in the order they entered. *)
Theorem serialized_delivery (evs : list E) (s : W) :
  (exists sched st,
      length sched = 4 * length evs /\
      run next sched (start evs s) = Some st) /\
  forall sched st,
    run next sched (start evs s) = Some st ->
    (exists ph, Serial ph (seen st)) /\
    (forall i j gi gj,
        pool st !! i = Some gi -> pool st !! j = Some gj ->
        holding gi = true -> holding gj = true -> i = j) /\
    length (entered_calls (seen st)) <= length evs /\
    length sched <= 4 * length evs /\
    (length sched < 4 * length evs ->
     exists i st', step next i st = Some st') /\
    (length sched = 4 * length evs ->
     Forall (fun g => is_finished g = true) (pool st) /\
     Serial Idle (seen st) /\
     length (entered_calls (seen st)) = length evs /\
     length (completed_calls (seen st)) = length evs /\
     (forall i kvs, evs !! i = Some kvs -> entries_of i (seen st) = [kvs]) /\
     sink_state st = fst (sink_all next (entered_calls (seen st)) s)).
Proof.
  split; [apply schedule_exists; lia|].
  intros sched st Hrun.
  pose proof (run_Inv s sched _ _ (Inv_start evs s) Hrun) as HI.
  destruct (run_progress sched _ _ Hrun) as (P1 & P2 & P3).
  assert (P0 : total progress (pool (start evs s)) = 0)
    by (apply start_total; reflexivity).
  assert (PL : length (pool (start evs s)) = length evs)
    by (simpl; apply length_map).
  assert (PA : map args (pool st) = evs).
  { rewrite P3. simpl. rewrite map_map. simpl. apply map_id. }
  pose proof (total_bound (pool st)) as Hb.
  destruct HI as [(ph & Hser & Hmx & Hag & Hho) Hent Hleft Hown Hsink].
  assert (Hle : total has_entered (pool st) <= length (pool st)).
  { unfold total. clear. induction (pool st) as [|x l IH]; simpl; [lia|].
    assert (has_entered x <= 1)
      by (unfold has_entered; destruct (at_pc x); lia).
    lia. }
  split; [exists ph; exact Hser|].
  split.
  { intros i j gi gj Hi Hj Hgi Hgj.
    pose proof (agrees_holding ph i gi (Hag i gi Hi) Hgi).
    pose proof (agrees_holding ph j gj (Hag j gj Hj) Hgj). congruence. }
  split; [lia|]. split; [lia|]. split.
  { intros Hlt. apply (Inv_can_step s).
    - constructor; [exists ph; auto | assumption ..].
    - lia. }
  intros Hall.
  assert (Hfin : Forall (fun g => is_finished g = true) (pool st))
    by (apply total_finished; lia).
  assert (Hidle : ph = Idle).
  { destruct (holder ph) as [h|] eqn:Hh;
      [|destruct ph; simpl in Hh; congruence].
    destruct (Hho h eq_refl) as (g & Hg & Hold).
    rewrite Forall_forall in Hfin.
    assert (Hf : is_finished g = true).
    { apply Hfin. apply list_elem_of_lookup. eauto. }
    unfold is_finished in Hf. unfold holding in Hold.
    destruct (at_pc g); discriminate. }
  subst ph.
  assert (Hcalls : entered_calls (seen st) = completed_calls (seen st))
    by (rewrite (Serial_calls _ _ Hser); apply app_nil_r).
  assert (Hn : length (completed_calls (seen st)) = length evs).
  { rewrite Hleft, <- PL, <- P2. clear - Hfin.
    unfold total. induction Hfin as [|x l Hx _ IH]; [reflexivity|].
    simpl. rewrite IH. unfold has_left, is_finished in *.
    destruct (at_pc x); try discriminate; reflexivity. }
  split; [exact Hfin|]. split; [exact Hser|].
  split; [rewrite Hcalls; exact Hn|]. split; [exact Hn|]. split.
  - intros i kvs Hi. rewrite <- PA in Hi.
    apply map_args_lookup in Hi as (g & Hg & <-).
    rewrite (Hown i g Hg).
    rewrite Forall_forall in Hfin.
    assert (Hf : is_finished g = true).
    { apply Hfin. apply list_elem_of_lookup. eauto. }
    unfold is_finished in Hf. unfold progress.
    destruct (at_pc g); try discriminate; reflexivity.
  - rewrite Hcalls. exact Hsink.
Qed.

End ConcurrentFacts.

(* ===================================================================== *)
(** * The theorems at concrete loggers and events *)
(* ===================================================================== *)

Section Scenarios.
Import level Serialized Concurrent.

(** Section 8, threshold warn and SquelchSilently: an info event is dropped
    with success, and the sink is not called. *)
Example scenario_info_dropped :
  Log (NewFilter (recording bufferSink) warn SquelchSilently)
      [("msg", VStr "x"); (levelKey, VLevel info)] ([], [])
  = (([], []), Returned None).
Proof. reflexivity. Qed.

(** Section 8, threshold warn and SquelchSilently: an error event reaches
    the sink as it is. *)
Example scenario_error_delivered :
  Log (NewFilter (recording bufferSink) warn SquelchSilently)
      [("msg", VStr "y"); (levelKey, VLevel error)] ([], [])
  = (([[("msg", VStr "y"); (levelKey, VLevel error)]],
      [[("msg", VStr "y"); (levelKey, VLevel error)]]), Returned None).
Proof. reflexivity. Qed.

(** Section 8, threshold debug and TreatAsError: an event without the
    reserved key is refused with [ErrNoLevel], and the sink is not called. *)
Example scenario_missing_level_is_error :
  Log (NewFilter (recording bufferSink) debug TreatAsError)
      [("msg", VStr "z")] ([], [])
  = (([], []), Returned (Some ErrNoLevel)).
Proof. reflexivity. Qed.

(** A tagger over a filter: the tag decides, whatever the caller wrote
    under the reserved key. *)
Example scenario_tag_then_filter :
  Log (Warn (NewFilter (recording bufferSink) warn SquelchSilently))
      [(levelKey, VLevel debug); ("msg", VStr "x")] ([], [])
  = (([[(levelKey, VLevel debug); ("msg", VStr "x"); (levelKey, VLevel warn)]],
      [[(levelKey, VLevel debug); ("msg", VStr "x"); (levelKey, VLevel warn)]]),
     Returned None).
Proof. reflexivity. Qed.

(** The call in [main], [logger.Log("transport", "http", ...)], on a fresh
    wrapper around a buffer. *)
Example scenario_main_listening :
  serializedLogger_Log
    [VStr "transport"; VStr "http"; VStr "msg"; VStr "listening"]
    {| self := newSerializedLogger bufferSink; sink := []; trace := [] |}
  = ({| self := newSerializedLogger bufferSink;
        sink := [[VStr "transport"; VStr "http"; VStr "msg"; VStr "listening"]];
        trace := [Acquire;
                  CallLogger [VStr "transport"; VStr "http"; VStr "msg";
                              VStr "listening"];
                  Release] |},
     Normal None).
Proof. reflexivity. Qed.

(** While goroutine 1 is inside the wrapped logger, goroutine 0 cannot get
    past [Lock]. *)
Example scenario_second_caller_waits :
  run bufferSink [1; 1; 0] (start [[VStr "a"]; [VStr "b"]] []) = None /\
  run bufferSink [1; 1; 1; 0] (start [[VStr "a"]; [VStr "b"]] []) = None /\
  run bufferSink [1; 1; 1; 1; 0] (start [[VStr "a"]; [VStr "b"]] []) <> None.
Proof. split; [reflexivity | split; [reflexivity | discriminate]]. Qed.

(** One goroutine alone does what the one-caller model of [Log] does. *)
Example scenario_one_goroutine :
  run bufferSink [0; 0; 0; 0] (start [[VStr "a"]] [])
  = Some {| mutex := Unlocked; sink_state := [[VStr "a"]];
            seen := [Acq 0; Enter 0 [VStr "a"];
                     Leave 0 [VStr "a"] (Returned None); Rel 0];
            pool := [{| args := [VStr "a"];
                        at_pc := Finished (Returned None) |}] |}.
Proof. reflexivity. Qed.

(** A goroutine whose wrapped call panics still unlocks: the other one
    gets the lock after it and finishes. *)
Example scenario_panic_then_next_caller :
  option_map (fun st => (mutex st, map at_pc (pool st)))
    (run (panickingSink (VStr "boom")) [1; 1; 1; 1; 0; 0; 0; 0]
       (start [[VStr "a"]; [VStr "b"]] []))
  = Some (Unlocked, [Finished (Panicked (VStr "boom"));
                     Finished (Panicked (VStr "boom"))]).
Proof. reflexivity. Qed.

(** The check refuses a history in which a second goroutine acquires the
    lock while the first is inside the wrapped logger. *)
Example scenario_overlap_refused :
  scan Idle [Acq 0; Enter 0 [VStr "a"]; Acq 1; Enter 1 [VStr "b"]] = None /\
  scan Idle [Acq 0; Enter 0 [VStr "a"]; Leave 0 [VStr "a"] (Returned None);
             Rel 0; Acq 1] = Some (Held 1).
Proof. split; reflexivity. Qed.

End Scenarios.

(** The filter of section 8 (threshold warn) on an event tagged twice: the
    last tag, error, decides, and the event reaches the sink as it is. *)
Lemma filter_threshold_witness :
  level.reservedPairs [("msg", VStr "y")] = 0 /\
  Log (level.NewFilter (recording bufferSink) warn level.SquelchSilently)
      [(level.levelKey, VLevel info); (level.levelKey, VLevel error);
       ("msg", VStr "y")] ([], [])
  = (([[(level.levelKey, VLevel info); (level.levelKey, VLevel error);
        ("msg", VStr "y")]],
      [[(level.levelKey, VLevel info); (level.levelKey, VLevel error);
        ("msg", VStr "y")]]), Returned None).
Proof.
  split; [reflexivity|].
  apply (proj1 (proj2 (filter_threshold bufferSink warn error
                         level.SquelchSilently
                         [(level.levelKey, VLevel info)] [("msg", VStr "y")]
                         [] [] eq_refl))).
  simpl. lia.
Defined.

(** An event without the reserved key under TreatAsError. *)
Lemma filter_missing_policy_witness :
  level.reservedPairs [("msg", VStr "z")] = 0 /\
  Log (level.NewFilter (recording bufferSink) debug level.TreatAsError)
      [("msg", VStr "z")] ([], [])
  = (([], []), Returned (Some ErrNoLevel)).
Proof.
  split; [reflexivity|].
  apply (proj1 (proj2 (filter_missing_policy bufferSink debug
                         level.TreatAsError [("msg", VStr "z")] [] []
                         eq_refl))).
  reflexivity.
Defined.

(** C4 as it is stated fails: under PassThrough an event without the
    reserved key is handed to the sink, and when the sink fails the filter
    returns that error, though the policy is not TreatAsError. *)
Lemma filter_passthrough_sink_error :
  level.reservedPairs [("msg", VStr "z")] = 0 /\
  Log (level.NewFilter (recording (failingSink "disk full")) debug
         level.PassThrough) [("msg", VStr "z")] ([], [])
  = (([[("msg", VStr "z")]], []), Returned (Some (SinkError "disk full"))) /\
  level.isError (Returned (Some (SinkError "disk full"))) = true /\
  level.PassThrough <> level.TreatAsError.
Proof.
  split; [reflexivity|]. split; [reflexivity|]. split; [reflexivity|].
  discriminate.
Qed.

(** C5 as it is stated fails: tagging at info an event that already has a
    reserved-key pair hands on an event with two such pairs, here both with
    the value info. *)
Lemma tagger_keeps_earlier_levels :
  Log (level.Tag info (recording bufferSink))
      [(level.levelKey, VLevel info)] ([], [])
  = (([[(level.levelKey, VLevel info); (level.levelKey, VLevel info)]],
      [[(level.levelKey, VLevel info); (level.levelKey, VLevel info)]]),
     Returned None) /\
  level.reservedPairs
    [(level.levelKey, VLevel info); (level.levelKey, VLevel info)] = 2 /\
  2 <> 1.
Proof. split; [reflexivity|]. split; [reflexivity | discriminate]. Qed.

(** A call on a fresh wrapper around a sink that fails. *)
Lemma Log_returns_wrapped_result_witness :
  Serialized.mtx (Serialized.newSerializedLogger
                    (@failingSink keyvals "disk full")) = Serialized.Unlocked /\
  snd (Serialized.serializedLogger_Log [VStr "msg"; VStr "x"]
         {| Serialized.self :=
              Serialized.newSerializedLogger (failingSink "disk full");
            Serialized.sink := []; Serialized.trace := [] |})
  = Serialized.Normal (Some (SinkError "disk full")).
Proof.
  split; [reflexivity|].
  apply (proj1 (proj2 (proj2 (proj2 (proj2
           (Log_returns_wrapped_result [VStr "msg"; VStr "x"]
              {| Serialized.self :=
                   Serialized.newSerializedLogger (failingSink "disk full");
                 Serialized.sink := []; Serialized.trace := [] |}
              eq_refl)))))).
  reflexivity.
Defined.

(** A call on a fresh wrapper around a sink that panics. *)
Lemma Log_unlocks_after_panic_witness :
  Serialized.mtx (Serialized.newSerializedLogger
                    (@panickingSink keyvals (VStr "boom")))
  = Serialized.Unlocked /\
  Serialized.mtx (Serialized.self (fst
    (Serialized.serializedLogger_Log [VStr "msg"; VStr "x"]
       {| Serialized.self :=
            Serialized.newSerializedLogger (panickingSink (VStr "boom"));
          Serialized.sink := []; Serialized.trace := [] |})))
  = Serialized.Unlocked.
Proof.
  split; [reflexivity|].
  exact (proj1 (proj2
           (Log_unlocks_after_panic [VStr "msg"; VStr "x"]
              {| Serialized.self :=
                   Serialized.newSerializedLogger (panickingSink (VStr "boom"));
                 Serialized.sink := []; Serialized.trace := [] |}
              eq_refl))).
Defined.

(** Two goroutines, the second one scheduled first. *)
Lemma serialized_delivery_witness :
  Concurrent.run bufferSink [1; 1; 1; 1; 0; 0; 0; 0]
    (Concurrent.start [[VStr "a"]; [VStr "b"]] [])
  = Some {| Concurrent.mutex := Serialized.Unlocked;
            Concurrent.sink_state := [[VStr "b"]; [VStr "a"]];
            Concurrent.seen :=
              [Concurrent.Acq 1; Concurrent.Enter 1 [VStr "b"];
               Concurrent.Leave 1 [VStr "b"] (Returned None);
               Concurrent.Rel 1;
               Concurrent.Acq 0; Concurrent.Enter 0 [VStr "a"];
               Concurrent.Leave 0 [VStr "a"] (Returned None);
               Concurrent.Rel 0];
            Concurrent.pool :=
              [{| Concurrent.args := [VStr "a"];
                  Concurrent.at_pc := Concurrent.Finished (Returned None) |};
               {| Concurrent.args := [VStr "b"];
                  Concurrent.at_pc := Concurrent.Finished (Returned None) |}]
         |} /\
  Concurrent.Serial Concurrent.Idle
    [Concurrent.Acq 1; Concurrent.Enter 1 [VStr "b"];
     Concurrent.Leave 1 [VStr "b"] (Returned None); Concurrent.Rel 1;
     Concurrent.Acq 0; Concurrent.Enter 0 [VStr "a"];
     Concurrent.Leave 0 [VStr "a"] (Returned None); Concurrent.Rel 0].
Proof.
  split; [reflexivity|].
  match goal with |- Concurrent.Serial _ ?obs =>
    pose (st := {| Concurrent.mutex := Serialized.Unlocked;
                   Concurrent.sink_state := [[VStr "b"]; [VStr "a"]];
                   Concurrent.seen := obs;
                   Concurrent.pool :=
                     [{| Concurrent.args := [VStr "a"];
                         Concurrent.at_pc :=
                           Concurrent.Finished (Returned None) |};
                      {| Concurrent.args := [VStr "b"];
                         Concurrent.at_pc :=
                           Concurrent.Finished (Returned None) |}] |})
  end.
  assert (Hrun : Concurrent.run bufferSink [1; 1; 1; 1; 0; 0; 0; 0]
                   (Concurrent.start [[VStr "a"]; [VStr "b"]] []) = Some st)
    by reflexivity.
  pose proof (proj2 (serialized_delivery bufferSink
                       [[VStr "a"]; [VStr "b"]] [])
                [1; 1; 1; 1; 0; 0; 0; 0] st Hrun) as H.
  destruct H as (_ & _ & _ & _ & _ & H).
  destruct (H eq_refl) as (_ & Hserial & _).
  exact Hserial.
Defined.

(* ===================================================================== *)
(** * Properties of [envString] and of the flag defaults *)
(* ===================================================================== *)

Section EnvString.
Import shipping.
Implicit Types (environ : Environ) (env fallback v : string).

Lemma envString_cases environ env fallback :
  envString environ env fallback
  = match environ !! env with
    | Some v => if String.eqb v "" then fallback else v
    | None => fallback
    end.
Proof.
  unfold envString, os_Getenv. destruct (environ !! env); reflexivity.
Qed.

Lemma envString_fallback_iff environ env fallback :
  envString environ env fallback = fallback <->
  environ !! env = None \/ environ !! env = Some "" \/
  environ !! env = Some fallback.
Proof.
  rewrite envString_cases. destruct (environ !! env) as [v|] eqn:Hv.
  - destruct (String.eqb_spec v "") as [->|Hne].
    + split; auto.
    + split.
      * intros ->. right; right. reflexivity.
      * intros [H|[H|H]]; congruence.
  - split; auto.
Qed.

(** X1: [envString] cannot tell a variable that is not set from one that is set
    to the empty string: both give the fallback, and a variable with any
    other value gives that value.  So the fallback comes back exactly when
    the variable is unset, empty, or equal to the fallback. *)
Theorem envString_unset_or_empty environ env fallback :
  (environ !! env = None -> envString environ env fallback = fallback) /\
  (environ !! env = Some "" -> envString environ env fallback = fallback) /\
  (forall v, environ !! env = Some v -> v <> "" ->
             envString environ env fallback = v) /\
  (envString environ env fallback = fallback <->
   environ !! env = None \/ environ !! env = Some "" \/
   environ !! env = Some fallback) /\
  envString (delete env environ) env fallback
  = envString (<[env := ""]> environ) env fallback.
Proof.
  split; [intros H; apply envString_fallback_iff; auto|].
  split; [intros H; apply envString_fallback_iff; auto|].
  split.
  { intros v Hv Hne. rewrite envString_cases, Hv.
    destruct (String.eqb_spec v ""); [contradiction | reflexivity]. }
  split; [apply envString_fallback_iff|].
  rewrite !envString_cases, lookup_delete_eq, lookup_insert_eq. reflexivity.
Qed.

(** X2: With a fallback that is not empty, [envString] never returns the empty
    string. *)
Theorem envString_nonempty environ env fallback :
  fallback <> "" -> envString environ env fallback <> "".
Proof.
  intros Hf. rewrite envString_cases.
  destruct (environ !! env) as [v|]; [|exact Hf].
  destruct (String.eqb_spec v ""); assumption.
Qed.

(** X3: The default listen address of [main] is a colon followed by a port that
    is not empty: the value of [PORT] when that is set and not empty, and
    [8080] otherwise. *)
Theorem default_httpAddr_port environ :
  exists port,
    default_httpAddr environ = String.append ":" port /\ port <> "" /\
    (port = "8080" <->
     environ !! "PORT" = None \/ environ !! "PORT" = Some "" \/
     environ !! "PORT" = Some "8080") /\
    (forall v, environ !! "PORT" = Some v -> v <> "" -> port = v).
Proof.
  exists (envString environ "PORT" defaultPort).
  split; [reflexivity|]. split.
  - apply envString_nonempty. discriminate.
  - split.
    + apply (envString_fallback_iff environ "PORT" defaultPort).
    + intros v Hv Hne. rewrite envString_cases, Hv.
      destruct (String.eqb_spec v ""); [contradiction | reflexivity].
Qed.

End EnvString.

(* ===================================================================== *)
(** * Properties of [accessControl] *)
(* ===================================================================== *)

Section AccessControl.
Import shipping.
Context {St : Type}.
Implicit Types (h : Handler St) (r : Request) (w : ResponseWriter) (st : St).
Implicit Types (noted : list (Request * ResponseWriter)).

Lemma allowHeaders_header w :
  header (allowHeaders w)
  = <["Access-Control-Allow-Headers" := ["Origin, Content-Type"]]>
      (<["Access-Control-Allow-Methods" := ["GET, POST, OPTIONS"]]>
         (<["Access-Control-Allow-Origin" := ["*"]]> (header w))).
Proof. reflexivity. Qed.

Lemma allowHeaders_lookup w (k : string) :
  header (allowHeaders w) !! k
  = if decide (k = "Access-Control-Allow-Headers")
    then Some ["Origin, Content-Type"]
    else if decide (k = "Access-Control-Allow-Methods")
    then Some ["GET, POST, OPTIONS"]
    else if decide (k = "Access-Control-Allow-Origin")
    then Some ["*"]
    else header w !! k.
Proof.
  rewrite allowHeaders_header, !lookup_insert.
  repeat case_decide; congruence.
Qed.

Lemma allowHeaders_twice w : allowHeaders (allowHeaders w) = allowHeaders w.
Proof.
  assert (H : header (allowHeaders (allowHeaders w))
              = header (allowHeaders w)).
  { apply map_eq. intros k. rewrite (allowHeaders_lookup (allowHeaders w)).
    rewrite (allowHeaders_lookup w). repeat case_decide; reflexivity. }
  change (allowHeaders (allowHeaders w))
    with {| header := header (allowHeaders (allowHeaders w));
            status := status w; written := written w |}.
  rewrite H. reflexivity.
Qed.

(** X4: The three headers carry exactly the values of the source, whatever the
    writer had under these keys (earlier values are replaced, not kept); no
    other header is touched, and neither the status nor the body is. *)
Theorem allowHeaders_sets_three w :
  header (allowHeaders w) !! "Access-Control-Allow-Origin" = Some ["*"] /\
  header (allowHeaders w) !! "Access-Control-Allow-Methods"
  = Some ["GET, POST, OPTIONS"] /\
  header (allowHeaders w) !! "Access-Control-Allow-Headers"
  = Some ["Origin, Content-Type"] /\
  (forall k : string, k ∉ allowKeys ->
     header (allowHeaders w) !! k = header w !! k) /\
  status (allowHeaders w) = status w /\
  written (allowHeaders w) = written w.
Proof.
  split; [rewrite allowHeaders_lookup; reflexivity|].
  split; [rewrite allowHeaders_lookup; reflexivity|].
  split; [rewrite allowHeaders_lookup; reflexivity|].
  split; [|split; reflexivity].
  intros k Hk. rewrite allowHeaders_lookup. unfold allowKeys in Hk.
  repeat case_decide; try reflexivity; subst k; exfalso; apply Hk;
    set_solver.
Qed.

(** X5: A request with method OPTIONS is answered by [accessControl] itself: the
    wrapped handler is not called and its state is not touched; the three
    headers are set and nothing is written, neither a status nor a body. *)
Theorem accessControl_preflight h r w noted st :
  Method r = "OPTIONS" ->
  accessControl (notingHandler h) r w (noted, st)
  = ((allowHeaders w, (noted, st)), Returns) /\
  status (allowHeaders w) = status w /\
  written (allowHeaders w) = written w.
Proof.
  intros Hm. unfold accessControl. rewrite Hm. cbn [String.eqb].
  repeat split.
Qed.

(** X6: A request with any other method (the comparison is exact, so also
    [options] in lower case) goes to the wrapped handler, once, with the
    request as it came and the writer with the three headers set; what the
    wrapped handler leaves, and how it ends, is the result: [accessControl]
    does nothing after it. *)
Theorem accessControl_forwards h r w noted st :
  Method r <> "OPTIONS" ->
  accessControl (notingHandler h) r w (noted, st)
  = ((fst (fst (h r (allowHeaders w) st)),
      (noted ++ [(r, allowHeaders w)], snd (fst (h r (allowHeaders w) st)))),
     snd (h r (allowHeaders w) st)).
Proof.
  intros Hm. unfold accessControl.
  destruct (String.eqb_spec (Method r) "OPTIONS") as [He|_];
    [contradiction|].
  unfold notingHandler. cbn [fst snd].
  destruct (h r (allowHeaders w) st) as [[w1 st1] c]. reflexivity.
Qed.

(** X7: Wrapping a handler twice in [accessControl] is the same as wrapping it
    once. *)
Theorem accessControl_twice h r w st :
  accessControl (accessControl h) r w st = accessControl h r w st.
Proof.
  unfold accessControl. rewrite allowHeaders_twice.
  destruct (String.eqb (Method r) "OPTIONS"); reflexivity.
Qed.

End AccessControl.

(* ===================================================================== *)
(** * Order, answers and completeness of the serialized delivery *)
(* ===================================================================== *)

Section DeliveryFacts.
Import Serialized Concurrent Delivery.
Context {E W : Type}.
Variable next : log_Logger E W.
Implicit Types (st : state E W) (g : goroutine E) (ph : phase E).
Implicit Types (obs : list (observation E)) (l : list (goroutine E)).

Lemma run_invariant (P : state E W -> Prop) (s0 : W) :
  (forall i st st',
      Inv next s0 st -> P st -> step next i st = Some st' -> P st') ->
  forall sched st st',
    Inv next s0 st -> P st -> run next sched st = Some st' -> P st'.
Proof.
  intros Hstep. induction sched as [|i sched IH]; intros st st' HI HP H;
    simpl in H.
  - injection H as <-. exact HP.
  - destruct (step next i st) as [st1|] eqn:Hs; [|discriminate].
    apply (IH st1 st'); [apply (step_Inv next s0 i st) | apply (Hstep i st)
                        | exact H]; assumption.
Qed.

(** After four steps for each goroutine every goroutine has finished, the
    history is serial and closed, and the pool still carries the events. *)
Lemma complete_run (evs : list E) (s : W) (sched : list nat) st :
  run next sched (start evs s) = Some st ->
  length sched = 4 * length evs ->
  Forall (fun g => is_finished g = true) (pool st) /\
  Serial Idle (seen st) /\
  map args (pool st) = evs.
Proof.
  intros Hrun Hall.
  pose proof (run_Inv next s sched _ _ (Inv_start next evs s) Hrun) as HI.
  destruct (run_progress next sched _ _ Hrun) as (P1 & P2 & P3).
  assert (P0 : total progress (pool (start evs s)) = 0)
    by (apply start_total; reflexivity).
  assert (PL : length (pool (start evs s)) = length evs)
    by (simpl; apply length_map).
  assert (Hfin : Forall (fun g => is_finished g = true) (pool st))
    by (apply total_finished; lia).
  split; [exact Hfin|]. split.
  - destruct HI as [(ph & Hser & Hmx & Hag & Hho) _ _ _ _].
    destruct (holder ph) as [h|] eqn:Hh.
    + destruct (Hho h eq_refl) as (g & Hg & Hold).
      rewrite Forall_forall in Hfin.
      assert (Hf : is_finished g = true)
        by (apply Hfin; apply list_elem_of_lookup; eauto).
      unfold is_finished in Hf. unfold holding in Hold.
      destruct (at_pc g); discriminate.
    + destruct ph; simpl in Hh; first [exact Hser | congruence].
  - rewrite P3. simpl. rewrite map_map. simpl. apply map_id.
Qed.

Lemma acq_ids_snoc obs x : acq_ids (obs ++ [x]) = acq_ids obs ++ acq_ids [x].
Proof.
  induction obs as [|y obs IH]; [reflexivity|].
  destruct y; simpl; rewrite IH; reflexivity.
Qed.

Lemma enter_ids_snoc obs x :
  enter_ids (obs ++ [x]) = enter_ids obs ++ enter_ids [x].
Proof.
  induction obs as [|y obs IH]; [reflexivity|].
  destruct y; simpl; rewrite IH; reflexivity.
Qed.

Lemma leave_ids_snoc obs x :
  leave_ids (obs ++ [x]) = leave_ids obs ++ leave_ids [x].
Proof.
  induction obs as [|y obs IH]; [reflexivity|].
  destruct y; simpl; rewrite IH; reflexivity.
Qed.

Lemma rel_ids_snoc obs x : rel_ids (obs ++ [x]) = rel_ids obs ++ rel_ids [x].
Proof.
  induction obs as [|y obs IH]; [reflexivity|].
  destruct y; simpl; rewrite IH; reflexivity.
Qed.


(** In a serial history the four orders are one order, up to the goroutine
    that is under way. *)
Lemma Serial_ids ph obs :
  Serial ph obs ->
  acq_ids obs = enter_ids obs ++ waiting_to_enter ph /\
  enter_ids obs = leave_ids obs ++ inside ph /\
  leave_ids obs = rel_ids obs ++ waiting_to_unlock ph.
Proof.
  induction 1 as [|obs g H IH|obs g kvs H IH|obs g kvs o H IH|obs g H IH];
    [repeat split | ..];
    destruct IH as (A & B & C);
    rewrite acq_ids_snoc, enter_ids_snoc, leave_ids_snoc, rel_ids_snoc;
    cbn in A, B, C |- *; rewrite ?app_nil_r in *;
    repeat split; congruence.
Qed.

(** X8: the wrapped logger serves the callers in the order in which they got
    the lock.  At any moment the orders of entering, of being answered and
    of unlocking are the order of locking, short of the one goroutine under
    way; when all have finished the four orders are the same. *)
Theorem delivery_in_lock_order (evs : list E) (s : W) (sched : list nat) st :
  run next sched (start evs s) = Some st ->
  (exists ph,
      acq_ids (seen st) = enter_ids (seen st) ++ waiting_to_enter ph /\
      enter_ids (seen st) = leave_ids (seen st) ++ inside ph /\
      leave_ids (seen st) = rel_ids (seen st) ++ waiting_to_unlock ph) /\
  (length sched = 4 * length evs ->
   enter_ids (seen st) = acq_ids (seen st) /\
   leave_ids (seen st) = acq_ids (seen st) /\
   rel_ids (seen st) = acq_ids (seen st) /\
   length (acq_ids (seen st)) = length evs).
Proof.
  intros Hrun. split.
  - pose proof (run_Inv next s sched _ _ (Inv_start next evs s) Hrun) as HI.
    destruct HI as [(ph & Hser & _) _ _ _ _].
    exists ph. apply Serial_ids, Hser.
  - intros Hall.
    destruct (complete_run evs s sched st Hrun Hall) as (Hfin & Hser & Hargs).
    destruct (Serial_ids _ _ Hser) as (A & B & C). cbn in A, B, C.
    rewrite app_nil_r in A, B, C.
    pose proof (run_Inv next s sched _ _ (Inv_start next evs s) Hrun) as HI.
    destruct HI as [_ Hent _ _ _].
    split; [congruence|]. split; [congruence|]. split; [congruence|].
    rewrite A.
    assert (Hl : forall obs, length (enter_ids obs)
                             = length (entered_calls obs)).
    { induction obs as [|y obs IH]; [reflexivity|].
      destruct y; simpl; rewrite ?IH; reflexivity. }
    rewrite Hl, Hent, <- Hargs, length_map.
    clear - Hfin. unfold total.
    induction Hfin as [|x l Hx _ IH]; [reflexivity|].
    simpl. rewrite IH. unfold has_entered, is_finished in *.
    destruct (at_pc x); try discriminate; reflexivity.
Qed.



Lemma entered_args_insert_same l : forall i g g',
  l !! i = Some g -> has_entered g' = has_entered g -> args g' = args g ->
  entered_args (<[i:=g']> l) = entered_args l.
Proof.
  induction l as [|x l IH]; intros [|i] g g' H He Ha; simpl in H;
    try discriminate.
  - injection H as ->. simpl. rewrite He, Ha. reflexivity.
  - simpl. rewrite (IH i g g' H He Ha). reflexivity.
Qed.

Lemma entered_args_insert_new l : forall i g g',
  l !! i = Some g -> has_entered g = 0 -> has_entered g' = 1 ->
  args g' = args g ->
  Permutation (entered_args (<[i:=g']> l)) (entered_args l ++ [args g]).
Proof.
  induction l as [|x l IH]; intros [|i] g g' H H0 H1 Ha; simpl in H;
    try discriminate.
  - injection H as ->. simpl. rewrite H0, H1, Ha.
    apply Permutation_cons_append.
  - simpl. specialize (IH i g g' H H0 H1 Ha).
    destruct (has_entered x); [exact IH|].
    simpl. apply perm_skip. exact IH.
Qed.

Lemma entered_args_finished l :
  Forall (fun g => is_finished g = true) l -> entered_args l = map args l.
Proof.
  induction 1 as [|x l Hx _ IH]; [reflexivity|].
  simpl. rewrite IH. unfold has_entered, is_finished in *.
  destruct (at_pc x); try discriminate; reflexivity.
Qed.

(** X10: no call is lost and none is made twice.  At any moment the calls the
    wrapped logger has been entered with are, up to order, the arguments of
    the goroutines that have got that far; when all have finished, the calls
    it has completed are the callers' events, up to order. *)
Theorem calls_are_the_callers_events (evs : list E) (s : W)
    (sched : list nat) st :
  run next sched (start evs s) = Some st ->
  Permutation (entered_calls (seen st)) (entered_args (pool st)) /\
  (length sched = 4 * length evs ->
   Permutation (completed_calls (seen st)) evs).
Proof.
  intros Hrun.
  assert (HP : Permutation (entered_calls (seen st)) (entered_args (pool st))).
  { apply (run_invariant
             (fun st => Permutation (entered_calls (seen st))
                                    (entered_args (pool st)))
             s) with (sched := sched) (st := start evs s);
      [ | apply Inv_start | | exact Hrun].
    - clear. intros i st st' _ HP Hstep.
      apply step_cases in Hstep as (g & Hg & Hcase).
      destruct Hcase as [(Hpc & Hm & ->) | [(Hpc & ->) | [(Hpc & ->) |
                         (o & Hpc & Hm & ->)]]];
        cbn [seen pool]; rewrite entered_calls_snoc;
        cbn [entered_calls]; rewrite ?app_nil_r.
      + rewrite (entered_args_insert_same _ i g); [exact HP | exact Hg | |];
          [unfold has_entered; rewrite Hpc|]; reflexivity.
      + rewrite (entered_args_insert_new _ i g _ Hg);
          [apply Permutation_app_tail; exact HP | | |];
          [unfold has_entered; rewrite Hpc| |]; reflexivity.
      + rewrite (entered_args_insert_same _ i g); [exact HP | exact Hg | |];
          [unfold has_entered; rewrite Hpc|]; reflexivity.
      + rewrite (entered_args_insert_same _ i g); [exact HP | exact Hg | |];
          [unfold has_entered; rewrite Hpc|]; reflexivity.
    - simpl. clear. induction evs as [|e evs IH]; [constructor | exact IH]. }
  split; [exact HP|].
  intros Hall.
  destruct (complete_run evs s sched st Hrun Hall) as (Hfin & Hser & Hargs).
  pose proof (Serial_calls _ _ Hser) as Hc. cbn in Hc.
  rewrite app_nil_r in Hc. rewrite <- Hc, <- Hargs.
  rewrite <- (entered_args_finished _ Hfin). exact HP.
Qed.

End DeliveryFacts.

(* ===================================================================== *)
(** * Properties of the instrumenting middleware *)
(* ===================================================================== *)

Section InstrumentingAny.
Import stringsvc.
Context {W : Type}.
Variable time_Now : W -> Z.


End InstrumentingAny.

Section InstrumentingNoted.
Import stringsvc.
Context {W0 : Type}.
Variable clock : W0 -> Z.
Variable svc : StringService W0.
Implicit Types (s : string) (noted : list sample) (w : W0).


(** The whole of [Count] over metrics that note their samples. *)
Lemma noted_Count s noted w :
  instrumenting_Count (besideClock clock) (notingMiddleware svc) s (noted, w)
  = let w1 := fst (Count svc s w) in
    let r := snd (Count svc s w) in
    let lvs := ["method"; "count"; "error"; "false"] in
    ((noted ++ [Added "request.count" lvs (F_lit 1 0);
                Observed "request.latency" lvs
                  (toMicroSecond (time_Since (clock w1) (clock w)));
                Observed "count.values" []
                  (F_of_int (match r with
                             | Return n => n
                             | Panicking _ => 0%Z
                             end))],
      w1), r).
Proof.
  unfold instrumenting_Count. cbn [next notingMiddleware besideSamples
                                    Count fst snd].
  destruct (Count svc s w) as [w1 [n|v]];
    cbn; rewrite <- !app_assoc; reflexivity.
Qed.

Lemma time_Since_exact (t1 t0 : Z) :
  (0 <= t1 - t0 <= maxDuration)%Z -> time_Since t1 t0 = (t1 - t0)%Z.
Proof.
  intros H. unfold time_Since.
  destruct (Z.ltb_spec maxDuration (t1 - t0)); [lia|].
  destruct (Z.ltb_spec (t1 - t0) minDuration); [|reflexivity].
  unfold minDuration, maxDuration in *. lia.
Qed.


(** X13: Each call of [Count] leaves exactly three samples, in this order: one
    count of 1 and one latency under the labels method=count and
    error=false, whatever happened, and the number counted under
    [count.values]; when the wrapped service panics the samples are still
    left, and the number noted is 0. *)
Theorem Count_samples s noted w :
  let res := instrumenting_Count (besideClock clock)
               (notingMiddleware svc) s (noted, w) in
  let w1 := fst (Count svc s w) in
  let r := snd (Count svc s w) in
  (exists latency n,
      fst (fst res)
      = noted ++ [Added "request.count"
                    ["method"; "count"; "error"; "false"] (F_lit 1 0);
                  Observed "request.latency"
                    ["method"; "count"; "error"; "false"] latency;
                  Observed "count.values" [] (F_of_int n)] /\
      (forall k, r = Return k -> n = k) /\
      (forall v, r = Panicking v -> n = 0%Z) /\
      ((0 <= clock w1 - clock w <= maxDuration)%Z ->
       latency = toMicroSecond (clock w1 - clock w))) /\
  snd (fst res) = w1 /\
  snd res = r.
Proof.
  intros res w1 r. unfold res. rewrite noted_Count. cbn zeta.
  fold w1 r. cbn [fst snd].
  split; [|split; reflexivity].
  eexists. eexists. split; [reflexivity|].
  split; [|split].
  - intros k ->. reflexivity.
  - intros v ->. reflexivity.
  - intros H. rewrite time_Since_exact by exact H. reflexivity.
Qed.

End InstrumentingNoted.

(* ===================================================================== *)
(** * The further theorems at concrete inputs *)
(* ===================================================================== *)

(** [PORT] set to the empty string. *)
Lemma envString_nonempty_witness :
  "8080" <> "" /\
  shipping.envString {["PORT" := ""]} "PORT" "8080" <> "".
Proof.
  split; [discriminate|].
  apply (envString_nonempty {["PORT" := ""]} "PORT" "8080").
  discriminate.
Defined.

(** A preflight request: the handler behind [accessControl] is not called,
    and the header the writer had under one of the three keys is replaced. *)
Lemma accessControl_preflight_witness :
  shipping.Method (demo.request "OPTIONS") = "OPTIONS" /\
  shipping.accessControl (shipping.notingHandler demo.okHandler)
    (demo.request "OPTIONS") demo.writer ([], tt)
  = ((shipping.allowHeaders demo.writer, ([], tt)), shipping.Returns) /\
  shipping.header (shipping.allowHeaders demo.writer)
    !! "Access-Control-Allow-Origin" = Some ["*"].
Proof.
  split; [reflexivity|]. split.
  - exact (proj1 (accessControl_preflight demo.okHandler
                    (demo.request "OPTIONS") demo.writer [] tt eq_refl)).
  - rewrite allowHeaders_lookup. reflexivity.
Defined.

(** The method is compared as it is written: [options] in lower case goes to
    the handler. *)
Lemma accessControl_forwards_witness :
  shipping.Method (demo.request "options") <> "OPTIONS" /\
  snd (snd (fst (shipping.accessControl
                   (shipping.notingHandler demo.okHandler)
                   (demo.request "options") demo.writer ([], tt))))
  = tt /\
  fst (snd (fst (shipping.accessControl
                   (shipping.notingHandler demo.okHandler)
                   (demo.request "options") demo.writer ([], tt))))
  = [(demo.request "options", shipping.allowHeaders demo.writer)].
Proof.
  assert (H : shipping.Method (demo.request "options") <> "OPTIONS")
    by discriminate.
  split; [exact H|].
  rewrite (accessControl_forwards demo.okHandler (demo.request "options")
             demo.writer [] tt H).
  split; reflexivity.
Defined.

(** Two callers over a sink that panics: the orders of locking, entering,
    answering and unlocking are all 1, 0. *)
Lemma delivery_in_lock_order_witness :
  Concurrent.run (panickingSink (VStr "boom")) demo.schedule
    (Concurrent.start demo.events []) = Some demo.final /\
  Delivery.enter_ids (Concurrent.seen demo.final) = [1; 0] /\
  Delivery.enter_ids (Concurrent.seen demo.final)
  = Delivery.acq_ids (Concurrent.seen demo.final).
Proof.
  split; [reflexivity|]. split; [reflexivity|].
  exact (proj1 (proj2 (delivery_in_lock_order (panickingSink (VStr "boom"))
                         demo.events [] demo.schedule demo.final eq_refl)
                  eq_refl)).
Defined.


(** The sink got the two events, the second caller's first. *)
Lemma calls_are_the_callers_events_witness :
  Concurrent.run (panickingSink (VStr "boom")) demo.schedule
    (Concurrent.start demo.events []) = Some demo.final /\
  Permutation [[VStr "b"]; [VStr "a"]] demo.events.
Proof.
  split; [reflexivity|].
  exact (proj2 (calls_are_the_callers_events (panickingSink (VStr "boom"))
                  demo.events [] demo.schedule demo.final eq_refl)
           eq_refl).
Defined.
